(** * cyclicbuffer: a fixed-capacity cyclic buffer behind one mutex

    A shallow embedding of the Go package [cyclicbuffer] and the properties
    its specification states about it.

    The package is modelled around one buffer object.  Every method runs in
    a small monad [M] that threads the buffer (the object behind the Go
    pointer [cb]) and ends in one of three outcomes: it returns, it panics
    (index out of range, [make] with a negative length, unlock of an
    unlocked mutex) or it blocks for ever on [mutex.Lock]. *)

From stdpp Require Import base numbers list strings.

Local Open Scope Z_scope.

(** ** Go's [int] *)

(** [int] is the 64-bit two's complement integer; [++] and [--] wrap. *)
Module GoInt.

Definition int_min : Z := - 2 ^ 63.
Definition int_max : Z := 2 ^ 63 - 1.

Definition is_int (z : Z) : Prop := int_min <= z <= int_max.

Definition wrap (z : Z) : Z := (z - int_min) `mod` 2 ^ 64 + int_min.

Definition incr (z : Z) : Z := wrap (z + 1).
Definition decr (z : Z) : Z := wrap (z - 1).

End GoInt.
Import GoInt.

(** ** Go slices *)

(** A slice of length [n] is a list of length [n]; an index expression
    outside [0, n) panics, which is [None] here. *)
Module Slice.

Definition in_range {A} (s : list A) (i : Z) : bool :=
  (0 <=? i) && (i <? Z.of_nat (length s)).

(** [s[i]] *)
Definition get {A} (s : list A) (i : Z) : option A :=
  if in_range s i then s !! Z.to_nat i else None.

(** [s[i] = x] *)
Definition set {A} (s : list A) (i : Z) (x : A) : option (list A) :=
  if in_range s i then Some (<[Z.to_nat i := x]> s) else None.

(** [make([]T, n)]: [n] zero values, a run-time panic when [n < 0].
    Memory is not bounded here: every length an [int] can hold is
    allocated. *)
Definition make {A} (zero : A) (n : Z) : option (list A) :=
  if n <? 0 then None else Some (replicate (Z.to_nat n) zero).

End Slice.

(** The slots of a slice from slot [i] on, then those before [i]: a slice
    read as a ring. *)
Definition from_slot {A} (i : nat) (l : list A) : list A :=
  drop i l ++ take i l.

(** The slot after slot [i], the ring closing at the end of the slice. *)
Definition next_slot {A} (i : nat) (l : list A) : nat :=
  if decide (S i < length l)%nat then S i else 0%nat.

(** ** The buffer *)

Section CyclicBuffer.

(** The dynamic values a caller stores.  A slot is an [interface{}]: the
    nil interface ([None], what [make] fills the slice with) or a value. *)
Variable V : Type.

Definition iface : Type := option V.

(** [type CyclicBuffer struct]: [mutex] is the state of the
    [*sync.Mutex], [true] when it is held. *)
Record CyclicBuffer : Type := mkCyclicBuffer {
  data : list iface;
  full : bool;
  size : Z;
  index : Z;
  mutex : bool
}.

Definition set_data (d : list iface) (cb : CyclicBuffer) : CyclicBuffer :=
  mkCyclicBuffer d (full cb) (size cb) (index cb) (mutex cb).
Definition set_full (b : bool) (cb : CyclicBuffer) : CyclicBuffer :=
  mkCyclicBuffer (data cb) b (size cb) (index cb) (mutex cb).
Definition set_index (i : Z) (cb : CyclicBuffer) : CyclicBuffer :=
  mkCyclicBuffer (data cb) (full cb) (size cb) i (mutex cb).
Definition set_mutex (b : bool) (cb : CyclicBuffer) : CyclicBuffer :=
  mkCyclicBuffer (data cb) (full cb) (size cb) (index cb) b.

(** *** Outcomes and the method monad *)

Inductive Outcome (A : Type) : Type :=
| Ret (a : A) (cb : CyclicBuffer)
| Panic (cb : CyclicBuffer)
| Blocked (cb : CyclicBuffer).
Arguments Ret {A} a cb.
Arguments Panic {A} cb.
Arguments Blocked {A} cb.

(** The buffer an outcome leaves behind. *)
Definition state_of {A} (o : Outcome A) : CyclicBuffer :=
  match o with Ret _ cb | Panic cb | Blocked cb => cb end.

Definition returns {A} (o : Outcome A) : bool :=
  match o with Ret _ _ => true | _ => false end.

Definition M (A : Type) : Type := CyclicBuffer -> Outcome A.

Definition ret {A} (a : A) : M A := fun cb => Ret a cb.

Definition bind {A B} (m : M A) (k : A -> M B) : M B := fun cb =>
  match m cb with
  | Ret a cb' => k a cb'
  | Panic cb' => Panic cb'
  | Blocked cb' => Blocked cb'
  end.

Definition panic {A} : M A := fun cb => Panic cb.

Definition gets {A} (f : CyclicBuffer -> A) : M A := fun cb => Ret (f cb) cb.

Definition modify (f : CyclicBuffer -> CyclicBuffer) : M unit :=
  fun cb => Ret tt (f cb).

Notation "'let*' x ':=' m 'in' k" := (bind m (fun x => k))
  (at level 10, x name, m at level 100, k at level 200, only parsing).
Notation "m ';;' k" := (bind m (fun _ => k))
  (at level 100, k at level 200, right associativity, only parsing).

(** [cb.mutex.Lock()]: a [sync.Mutex] is not reentrant; locking a held
    mutex waits until somebody else unlocks it. *)
Definition Lock : M unit := fun cb =>
  if mutex cb then Blocked cb else Ret tt (set_mutex true cb).

(** [cb.mutex.Unlock()]: unlocking a mutex that is not held is a fatal
    run-time error. *)
Definition Unlock : M unit := fun cb =>
  if mutex cb then Ret tt (set_mutex false cb) else Panic cb.

(** [defer d] in front of [body]: [d] runs when [body] returns and also
    when it panics; the panic then goes on. *)
Definition defer {A} (d : M unit) (body : M A) : M A := fun cb =>
  match body cb with
  | Ret a cb' =>
      match d cb' with
      | Ret _ cb'' => Ret a cb''
      | Panic cb'' => Panic cb''
      | Blocked cb'' => Blocked cb''
      end
  | Panic cb' =>
      match d cb' with
      | Ret _ cb'' | Panic cb'' => Panic cb''
      | Blocked cb'' => Blocked cb''
      end
  | Blocked cb' => Blocked cb'
  end.

(** [cb.data[i]] and [cb.data[i] = d], with Go's bounds check. *)
Definition load_data (i : Z) : M iface := fun cb =>
  match Slice.get (data cb) i with
  | Some d => Ret d cb
  | None => Panic cb
  end.

Definition store_data (i : Z) (d : iface) : M unit := fun cb =>
  match Slice.set (data cb) i d with
  | Some s => Ret tt (set_data s cb)
  | None => Panic cb
  end.

(** *** The methods *)

(** [func (cb *CyclicBuffer) NotEmpty() bool] *)
Definition NotEmpty : M bool :=
  let* f := gets full in
  let* i := gets index in
  ret (f || (0 <? i)).

(** [func (cb *CyclicBuffer) Empty() bool] *)
Definition Empty : M bool :=
  let* b := NotEmpty in
  ret (negb b).

(** [func New(size int) *CyclicBuffer]; [None] is the panic of [make]. *)
Definition New (size : Z) : option CyclicBuffer :=
  match Slice.make (None : iface) size with
  | Some s => Some (mkCyclicBuffer s false size 0 false)
  | None => None
  end.

(** [func (cb *CyclicBuffer) Append(d interface{}) int] *)
Definition Append (d : iface) : M Z :=
  Lock ;;
  defer Unlock
    (let* index0 := gets index in
     store_data index0 d ;;
     let index1 := incr index0 in
     let* sz := gets size in
     let* index2 :=
       (if sz <=? index1
        then modify (set_full true) ;; ret 0
        else ret index1) in
     modify (set_index index2) ;;
     ret index2).

(** [func (cb *CyclicBuffer) AppendSafe(d interface{}) int] *)
Definition AppendSafe (d : iface) : M Z :=
  Lock ;;
  defer Unlock (Append d).

(** [type Iterator struct].  The field [cb] points at the buffer the
    monad threads, so the iterator reads the buffer as it is when
    [Value] runs, not as it was when the iterator was created. *)
Record Iterator : Type := mkIterator {
  it_index : Z;
  it_count : Z
}.

(** [func (cb *CyclicBuffer) CreateIterator() *Iterator] *)
Definition CreateIterator : M Iterator :=
  let* f := gets full in
  if f
  then (let* i := gets index in
        let* c := gets size in
        ret (mkIterator i c))
  else (let* c := gets index in
        ret (mkIterator 0 c)).

(** [func (it *Iterator) Value() interface{}]: the value and the
    iterator as the call leaves it. *)
Definition Value (it : Iterator) : M (iface * Iterator) :=
  let* value := load_data (it_index it) in
  let i1 := incr (it_index it) in
  let* sz := gets size in
  let i2 := if sz <=? i1 then 0 else i1 in
  ret (value, mkIterator i2 (decr (it_count it))).

(** [func (it *Iterator) Next() bool] *)
Definition Next (it : Iterator) : bool := 0 <? it_count it.

(** One turn of the loop of [Get], on the local variables [index] and
    [res]. *)
Definition Get_iter (st : Z * list iface) : M (Z * list iface) :=
  let '(index0, res) := st in
  let* d := load_data index0 in
  let res := res ++ [d] in
  let index1 := incr index0 in
  let* sz := gets size in
  let index2 := if sz <=? index1 then 0 else index1 in
  ret (index2, res).

(** [for i := 0; i < count; i++ { ... }] runs its body [count] times. *)
Fixpoint Get_loop (n : nat) (st : Z * list iface) : M (Z * list iface) :=
  match n with
  | O => ret st
  | S n' => let* st' := Get_iter st in Get_loop n' st'
  end.

(** The head of [Get]: the start index and the count, then
    [make([]interface{}, 0, count)]. *)
Definition Get_begin : M (Z * Z) :=
  let* f := gets full in
  let* ic :=
    (if f
     then (let* i := gets index in let* c := gets size in ret (i, c))
     else (let* c := gets index in ret (0, c))) in
  if snd ic <? 0 then panic else ret ic.

(** [func (cb *CyclicBuffer) Get() []interface{}] *)
Definition Get : M (list iface) :=
  let* ic := Get_begin in
  let* st := Get_loop (Z.to_nat (snd ic)) (fst ic, []) in
  ret (snd st).

(** [func (cb *CyclicBuffer) GetData() []interface{}] *)
Definition GetData : M (list iface) := gets data.

(** [Append] as the first revision of the package has it
    (cyclicbuffer.go): the same body, nothing returned. *)
Definition Append_v0 (d : iface) : M unit :=
  Lock ;;
  defer Unlock
    (let* index0 := gets index in
     store_data index0 d ;;
     let index1 := incr index0 in
     let* sz := gets size in
     let* index2 :=
       (if sz <=? index1
        then modify (set_full true) ;; ret 0
        else ret index1) in
     modify (set_index index2)).

(** *** Callers *)

(** The loop a caller writes around an iterator,
    [for it.Next() { res = append(res, it.Value()) }].  [fuel] bounds the
    turns; [None] says the bound was hit before [Next] answered false. *)
Fixpoint drain (fuel : nat) (it : Iterator) (acc : list iface)
  : M (option (list iface)) :=
  match fuel with
  | O => if Next it then ret None else ret (Some acc)
  | S fuel' =>
      if Next it
      then (let* vi := Value it in
            drain fuel' (snd vi) (acc ++ [fst vi]))
      else ret (Some acc)
  end.

Definition iterate (fuel : nat) : M (option (list iface)) :=
  let* it := CreateIterator in
  drain fuel it [].

(** Appending a sequence of values, one call after the other. *)
Fixpoint Appends (ds : list iface) : M unit :=
  match ds with
  | [] => ret tt
  | d :: ds' => Append d ;; Appends ds'
  end.

(** The calls of the public interface on a buffer. *)
Inductive Call : Type :=
| CallAppend (d : iface)
| CallAppendSafe (d : iface)
| CallGet
| CallGetData
| CallCreateIterator
| CallEmpty
| CallNotEmpty.

Definition call (c : Call) : M unit :=
  match c with
  | CallAppend d => Append d ;; ret tt
  | CallAppendSafe d => AppendSafe d ;; ret tt
  | CallGet => Get ;; ret tt
  | CallGetData => GetData ;; ret tt
  | CallCreateIterator => CreateIterator ;; ret tt
  | CallEmpty => Empty ;; ret tt
  | CallNotEmpty => NotEmpty ;; ret tt
  end.

(** The states a program gets a buffer into: [New], then calls that
    return. *)
Inductive reachable : CyclicBuffer -> Prop :=
| reachable_New c cb :
    c <= int_max -> New c = Some cb -> reachable cb
| reachable_call c cb cb' :
    reachable cb -> call c cb = Ret tt cb' -> reachable cb'.

(** *** Bookkeeping of the logical content *)

(** The number of live entries. *)
Definition count (cb : CyclicBuffer) : Z :=
  if full cb then size cb else index cb.

(** The live entries, oldest first, read off the slots. *)
Definition content (cb : CyclicBuffer) : list iface :=
  let i := Z.to_nat (index cb) in
  if full cb then from_slot i (data cb) else take i (data cb).

(** The last [c] elements of a sequence. *)
Definition last_n (c : Z) (l : list iface) : list iface :=
  drop (length l - Z.to_nat c)%nat l.

Record wf (cb : CyclicBuffer) : Prop := mk_wf {
  wf_size : 0 <= size cb <= int_max;
  wf_data : Z.of_nat (length (data cb)) = size cb;
  wf_index : 0 <= index cb < Z.max 1 (size cb);
  wf_full : full cb = true -> 1 <= size cb
}.

(** *** A [Get] running next to appenders *)

(** [Get] takes no lock, so calls of [Append] on other goroutines can run
    between any two turns of its loop.  A schedule lists, in order, the
    turns of the loop of the [Get] in flight and the whole [Append] calls
    that run in between; when the schedule ends the [Get] runs the turns
    it has left. *)
Inductive Step : Type :=
| StepGet
| StepAppend (d : iface).

Fixpoint run_schedule (sch : list Step) (left : nat) (st : Z * list iface)
  : M (nat * (Z * list iface)) :=
  match sch with
  | [] => ret (left, st)
  | StepGet :: sch' =>
      match left with
      | O => run_schedule sch' O st
      | S left' => let* st' := Get_iter st in run_schedule sch' left' st'
      end
  | StepAppend d :: sch' => Append d ;; run_schedule sch' left st
  end.

Definition Get_among (sch : list Step) : M (list iface) :=
  let* ic := Get_begin in
  let* r := run_schedule sch (Z.to_nat (snd ic)) (fst ic, []) in
  let* st := Get_loop (fst r) (snd r) in
  ret (snd st).

(** The contents the buffer goes through while the appends of a schedule
    run, the one it starts from included. *)
Fixpoint contents_along (sch : list Step) (cb : CyclicBuffer)
  : list (list iface) :=
  match sch with
  | [] => [content cb]
  | StepGet :: sch' => contents_along sch' cb
  | StepAppend d :: sch' =>
      content cb :: contents_along sch' (state_of (Append d cb))
  end.

End CyclicBuffer.

Arguments mkCyclicBuffer {V} data full size index mutex.
Arguments data {V} c.
Arguments full {V} c.
Arguments size {V} c.
Arguments index {V} c.
Arguments mutex {V} c.
Arguments set_data {V} d cb.
Arguments set_full {V} b cb.
Arguments set_index {V} i cb.
Arguments set_mutex {V} b cb.
Arguments Ret {V A} a cb.
Arguments Panic {V A} cb.
Arguments Blocked {V A} cb.
Arguments state_of {V A} o.
Arguments returns {V A} o.
Arguments ret {V A} a _.
Arguments bind {V A B} m k _.
Arguments panic {V A} _.
Arguments gets {V A} f _.
Arguments modify {V} f _.
Arguments Lock {V} _.
Arguments Unlock {V} _.
Arguments defer {V A} d body _.
Arguments load_data {V} i _.
Arguments store_data {V} i d _.
Arguments NotEmpty {V} _.
Arguments Empty {V} _.
Arguments New {V} size.
Arguments Append {V} d _.
Arguments AppendSafe {V} d _.
Arguments Append_v0 {V} d _.
Arguments CreateIterator {V} _.
Arguments Value {V} it _.
Arguments Get_iter {V} st _.
Arguments Get_loop {V} n st _.
Arguments Get_begin {V} _.
Arguments Get {V} _.
Arguments GetData {V} _.
Arguments drain {V} fuel it acc _.
Arguments iterate {V} fuel _.
Arguments Appends {V} ds _.
Arguments CallAppend {V} d.
Arguments CallAppendSafe {V} d.
Arguments CallGet {V}.
Arguments CallGetData {V}.
Arguments CallCreateIterator {V}.
Arguments CallEmpty {V}.
Arguments CallNotEmpty {V}.
Arguments call {V} c _.
Arguments reachable {V} _.
Arguments reachable_New {V} c cb _ _.
Arguments reachable_call {V} c cb cb' _ _.
Arguments count {V} cb.
Arguments content {V} cb.
Arguments last_n {V} c l.
Arguments wf {V} cb.
Arguments StepGet {V}.
Arguments StepAppend {V} d.
Arguments run_schedule {V} sch left st _.
Arguments Get_among {V} sch _.
Arguments contents_along {V} sch cb.

(** ** Concrete buffers *)

(** The values [A] to [E] of the wraparound example, and the buffer of
    capacity 3 they are appended to. *)
Module Example.

Definition A : iface string := Some "A"%string.
Definition B : iface string := Some "B"%string.
Definition C : iface string := Some "C"%string.
Definition D : iface string := Some "D"%string.
Definition E : iface string := Some "E"%string.

Definition empty3 : CyclicBuffer string :=
  mkCyclicBuffer [None; None; None] false 3 0 false.

(** [A], [B], [C] appended: full, the write cursor back at slot 0. *)
Definition abc : CyclicBuffer string :=
  mkCyclicBuffer [A; B; C] true 3 0 false.

Definition abcd : CyclicBuffer string :=
  mkCyclicBuffer [D; B; C] true 3 1 false.

Definition abcde : CyclicBuffer string :=
  mkCyclicBuffer [D; E; C] true 3 2 false.

(** The iterator made on [abcd], after it has yielded its three
    entries. *)
Definition drained : Iterator := mkIterator 1 0.

End Example.

(** ** What a call of [Append] leaves *)

(** The write cursor after one more append, and the buffer after it: the
    closed form [Append] is compared with. *)
Definition next_index {V} (cb : CyclicBuffer V) : Z :=
  if size cb <=? index cb + 1 then 0 else index cb + 1.

Definition appended {V} (d : iface V) (cb : CyclicBuffer V) : CyclicBuffer V :=
  mkCyclicBuffer
    (<[Z.to_nat (index cb) := d]> (data cb))
    (full cb || (size cb <=? index cb + 1))
    (size cb)
    (next_index cb)
    (mutex cb).

(** The cursor invariant of the data model. *)
Definition cursor_inv {V} (cb : CyclicBuffer V) : Prop :=
  0 <= index cb < size cb.

(** ** More callers *)

(** [k] calls of [Value] in a row on one iterator, [Next] not asked: the
    values yielded, in order, and the iterator as the last call leaves
    it. *)
Fixpoint Values {V} (k : nat) (it : Iterator) (acc : list (iface V))
  : M V (list (iface V) * Iterator) :=
  match k with
  | O => ret (acc, it)
  | S k' => bind (Value it) (fun vi => Values k' (snd vi) (acc ++ [fst vi]))
  end.

(** The call is waiting for the mutex. *)
Definition waits {V A} (o : Outcome V A) : bool :=
  match o with Blocked _ => true | _ => false end.

(** ** Arithmetic of [int] *)

Section IntFacts.

Lemma wrap_id z : is_int z -> wrap z = z.
Proof.
  unfold is_int, wrap, int_min, int_max. intros Hz.
  rewrite Z.mod_small; lia.
Qed.

Lemma incr_lt z hi : 0 <= z < hi -> hi <= int_max -> incr z = z + 1.
Proof.
  unfold incr. intros Hz Hhi. apply wrap_id.
  unfold is_int, int_min, int_max in *. lia.
Qed.

Lemma decr_pos z : 0 <= z <= int_max -> decr z = z - 1.
Proof.
  unfold decr. intros Hz. apply wrap_id.
  unfold is_int, int_min, int_max in *. lia.
Qed.

End IntFacts.

(** ** Lists read as rings *)

Section Ring.

Context {A : Type}.
Implicit Types l k : list A.

Lemma from_slot_0 l : from_slot 0 l = l.
Proof. unfold from_slot. rewrite drop_0, take_0. apply app_nil_r. Qed.

Lemma length_from_slot i l : length (from_slot i l) = length l.
Proof.
  unfold from_slot. rewrite length_app, length_drop, length_take. lia.
Qed.

(** Reading one slot and stepping the cursor, with the wrap at the end of
    the slice. *)
Lemma take_from_slot_S n i l x :
  l !! i = Some x -> (S n <= length l)%nat ->
  take (S n) (from_slot i l) =
  x :: take n (from_slot (next_slot i l) l).
Proof.
  intros Hx Hn. pose proof (lookup_lt_Some _ _ _ Hx) as Hi.
  unfold from_slot, next_slot. rewrite (drop_S _ _ _ Hx). simpl. f_equal.
  case_decide as Hw.
  - rewrite (take_S_r _ _ _ Hx), (app_assoc (drop (S i) l)).
    symmetry. apply take_app_le.
    rewrite length_app, length_drop, length_take. lia.
  - assert (S i = length l) as Hlen by lia.
    rewrite drop_ge by lia. rewrite drop_0, take_0, app_nil_r. simpl.
    rewrite take_take. f_equal. lia.
Qed.

Lemma last_app_drop (c : nat) l k :
  drop (length (drop (length l - c) l ++ k) - c) (drop (length l - c) l ++ k)
  = drop (length (l ++ k) - c) (l ++ k).
Proof.
  rewrite !length_app, length_drop.
  replace (drop (length l - c) l ++ k) with (drop (length l - c) (l ++ k)).
  - rewrite drop_drop. f_equal. lia.
  - rewrite drop_app_le by lia. done.
Qed.

(** Overwriting slot [i] and stepping the cursor drops the oldest entry
    of the ring and puts the new one last. *)
Lemma from_slot_insert_next i l x d :
  l !! i = Some x ->
  from_slot (next_slot i l) (<[i:=d]> l) = drop 1 (from_slot i l ++ [d]).
Proof.
  intros Hx. pose proof (lookup_lt_Some _ _ _ Hx) as Hi.
  rewrite insert_take_drop by done.
  unfold from_slot at 2. rewrite (drop_S _ _ _ Hx). simpl. rewrite drop_0.
  assert (length (take i l) = i) as Hti by (rewrite length_take; lia).
  assert (length (take i l ++ [d]) = S i) as Htd
    by (rewrite length_app; simpl; lia).
  unfold next_slot. case_decide as Hw; unfold from_slot.
  - rewrite (cons_middle d), app_assoc.
    rewrite drop_app_length', take_app_length' by done.
    rewrite <- app_assoc. done.
  - rewrite drop_0, take_0, app_nil_r.
    rewrite (drop_ge l (S i)) by lia. done.
Qed.

Lemma take_insert_next i l d :
  (i < length l)%nat -> take (S i) (<[i:=d]> l) = take i l ++ [d].
Proof.
  intros Hi. rewrite (take_S_r _ _ d) by (by apply list_lookup_insert_eq).
  rewrite take_insert_ge by lia. done.
Qed.

End Ring.

(** ** The methods on well-formed buffers *)

Section Methods.

Context {V : Type}.
Implicit Types (cb : CyclicBuffer V) (d : iface V) (s : list (iface V)).

Lemma Slice_get_in {A} (s : list A) i :
  0 <= i < Z.of_nat (length s) -> Slice.get s i = s !! Z.to_nat i.
Proof.
  intros Hi. unfold Slice.get, Slice.in_range.
  destruct (Z.leb_spec 0 i), (Z.ltb_spec i (Z.of_nat (length s))); simpl; lia || done.
Qed.

Lemma Slice_set_in {A} (s : list A) i x :
  0 <= i < Z.of_nat (length s) ->
  Slice.set s i x = Some (<[Z.to_nat i := x]> s).
Proof.
  intros Hi. unfold Slice.set, Slice.in_range.
  destruct (Z.leb_spec 0 i), (Z.ltb_spec i (Z.of_nat (length s))); simpl; lia || done.
Qed.

Lemma Slice_get_out {A} (s : list A) i :
  ~ 0 <= i < Z.of_nat (length s) -> Slice.get s i = None.
Proof.
  intros Hi. unfold Slice.get, Slice.in_range.
  destruct (Z.leb_spec 0 i), (Z.ltb_spec i (Z.of_nat (length s))); simpl; lia || done.
Qed.

Lemma Slice_set_out {A} (s : list A) i x :
  ~ 0 <= i < Z.of_nat (length s) -> Slice.set s i x = None.
Proof.
  intros Hi. unfold Slice.set, Slice.in_range.
  destruct (Z.leb_spec 0 i), (Z.ltb_spec i (Z.of_nat (length s))); simpl; lia || done.
Qed.

(** [Append] on a free mutex and a cursor in range. *)
Lemma Append_appended d cb :
  wf cb -> 1 <= size cb -> mutex cb = false ->
  Append d cb = Ret (next_index cb) (appended d cb).
Proof.
  intros [Hsz Hlen Hidx _] Hpos Hm.
  destruct cb as [dat f sz i m]. simpl in *. subst m.
  unfold Append, bind, defer, Lock, gets, store_data, modify, ret. simpl.
  rewrite Slice_set_in by lia. simpl.
  rewrite (incr_lt i sz) by lia.
  unfold appended, next_index. simpl.
  destruct (sz <=? i + 1); simpl; rewrite ?orb_true_r, ?orb_false_r; reflexivity.
Qed.

Lemma wf_appended d cb : wf cb -> 1 <= size cb -> wf (appended d cb).
Proof.
  intros [Hsz Hlen Hidx Hf] Hpos.
  split; unfold appended, next_index; simpl.
  - done.
  - rewrite length_insert. done.
  - destruct (Z.leb_spec (size cb) (index cb + 1)); lia.
  - done.
Qed.

(** A held mutex stops [Append] at its first statement. *)
Lemma Append_blocked d cb : mutex cb = true -> Append d cb = Blocked cb.
Proof. intros Hm. unfold Append, bind, Lock. rewrite Hm. done. Qed.

(** *** Reading: the loop of [Get] and the iterator *)

Lemma wrapped_cursor (i : nat) cb :
  Z.of_nat (length (data cb)) = size cb -> size cb <= int_max ->
  (i < length (data cb))%nat ->
  (if size cb <=? incr (Z.of_nat i) then 0 else incr (Z.of_nat i))
  = Z.of_nat (next_slot i (data cb)).
Proof.
  intros Hlen Hmax Hi. rewrite (incr_lt _ (size cb)) by lia.
  unfold next_slot. case_decide; destruct (Z.leb_spec (size cb) (Z.of_nat i + 1)); lia.
Qed.

Lemma Get_iter_in (i : nat) res x cb :
  Z.of_nat (length (data cb)) = size cb -> size cb <= int_max ->
  data cb !! i = Some x ->
  Get_iter (Z.of_nat i, res) cb = Ret (Z.of_nat (next_slot i (data cb)), res ++ [x]) cb.
Proof.
  intros Hlen Hmax Hx. pose proof (lookup_lt_Some _ _ _ Hx) as Hi.
  unfold Get_iter, bind, load_data, gets, ret.
  rewrite Slice_get_in by lia. rewrite Nat2Z.id, Hx.
  rewrite wrapped_cursor by done. done.
Qed.

Lemma Value_in (i : nat) c x cb :
  Z.of_nat (length (data cb)) = size cb -> size cb <= int_max ->
  data cb !! i = Some x ->
  Value (mkIterator (Z.of_nat i) c) cb
  = Ret (x, mkIterator (Z.of_nat (next_slot i (data cb))) (decr c)) cb.
Proof.
  intros Hlen Hmax Hx. pose proof (lookup_lt_Some _ _ _ Hx) as Hi.
  unfold Value, bind, load_data, gets, ret. simpl.
  rewrite Slice_get_in by lia. rewrite Nat2Z.id, Hx.
  rewrite wrapped_cursor by done. done.
Qed.

Lemma next_slot_lt i cb :
  (i < length (data cb))%nat -> (next_slot i (data cb) < length (data cb))%nat.
Proof. unfold next_slot. case_decide; lia. Qed.

Lemma Get_loop_S n st cb :
  Get_loop (S n) st cb =
  match Get_iter st cb with
  | Ret st' cb' => Get_loop n st' cb'
  | Panic cb' => Panic cb'
  | Blocked cb' => Blocked cb'
  end.
Proof. reflexivity. Qed.

Lemma drain_S fuel it acc cb :
  Next it = true ->
  drain (S fuel) it acc cb =
  match Value it cb with
  | Ret vi cb' => drain fuel (snd vi) (acc ++ [fst vi]) cb'
  | Panic cb' => Panic cb'
  | Blocked cb' => Blocked cb'
  end.
Proof. intros Hn. simpl. rewrite Hn. reflexivity. Qed.

(** [n] turns of the loop of [Get] from slot [i] read the ring from [i]. *)
Lemma Get_loop_from_slot cb (n : nat) :
  Z.of_nat (length (data cb)) = size cb -> size cb <= int_max ->
  forall (i : nat) res,
    (n <= length (data cb))%nat -> (i < length (data cb))%nat ->
    exists j, Get_loop n (Z.of_nat i, res) cb
              = Ret (j, res ++ take n (from_slot i (data cb))) cb.
Proof.
  intros Hlen Hmax. induction n as [|n IH]; intros i res Hn Hi.
  - exists (Z.of_nat i). simpl. rewrite take_0, app_nil_r. done.
  - destruct (lookup_lt_is_Some_2 _ _ Hi) as [x Hx].
    destruct (IH (next_slot i (data cb)) (res ++ [x])) as [j Hj];
      [lia | by apply next_slot_lt |].
    exists j. rewrite Get_loop_S.
    rewrite (Get_iter_in i res x) by done. rewrite Hj.
    rewrite (take_from_slot_S n i _ x) by done.
    rewrite <- app_assoc. done.
Qed.

(** On a well-formed buffer [Get] returns, leaves the buffer alone and
    yields the live entries, oldest first. *)
Lemma Get_content cb : wf cb -> Get cb = Ret (content cb) cb.
Proof.
  intros [Hsz Hlen Hidx Hf].
  unfold Get, Get_begin, content, bind, gets, ret.
  destruct (full cb) eqn:Hfull; simpl.
  - specialize (Hf eq_refl).
    destruct (Z.ltb_spec (size cb) 0); [lia|]. simpl.
    destruct (Get_loop_from_slot cb (Z.to_nat (size cb)) Hlen (proj2 Hsz)
                (Z.to_nat (index cb)) []) as [j Hj]; [lia | lia |].
    rewrite Z2Nat.id in Hj by lia. rewrite Hj. simpl.
    rewrite take_ge; [done|]. rewrite length_from_slot. lia.
  - destruct (Z.ltb_spec (index cb) 0); [lia|]. simpl.
    destruct (decide (index cb = 0)) as [H0|H0].
    + rewrite H0. simpl. done.
    + destruct (Get_loop_from_slot cb (Z.to_nat (index cb)) Hlen (proj2 Hsz)
                  0%nat []) as [j Hj]; [lia | lia |].
      change (Z.of_nat 0) with 0 in Hj. rewrite Hj. simpl.
      rewrite from_slot_0. done.
Qed.

Lemma length_content cb : wf cb -> Z.of_nat (length (content cb)) = count cb.
Proof.
  intros [Hsz Hlen Hidx Hf]. unfold content, count.
  destruct (full cb).
  - rewrite length_from_slot. done.
  - rewrite length_take. lia.
Qed.

(** Draining an iterator that has [n] entries left from slot [i]. *)
Lemma drain_from_slot cb (n : nat) :
  Z.of_nat (length (data cb)) = size cb -> size cb <= int_max ->
  forall (fuel i : nat) acc,
    (n <= fuel)%nat ->
    (n <= length (data cb))%nat -> (n = 0%nat \/ i < length (data cb))%nat ->
    drain fuel (mkIterator (Z.of_nat i) (Z.of_nat n)) acc cb
    = Ret (Some (acc ++ take n (from_slot i (data cb)))) cb.
Proof.
  intros Hlen Hmax. induction n as [|n IH]; intros fuel i acc Hfuel Hn Hi.
  - rewrite take_0, app_nil_r. destruct fuel; done.
  - destruct Hi as [|Hi]; [lia|].
    destruct fuel as [|fuel]; [lia|].
    destruct (lookup_lt_is_Some_2 _ _ Hi) as [x Hx].
    rewrite drain_S by (apply Z.ltb_lt; simpl; lia).
    rewrite (Value_in i _ x) by done. simpl.
    rewrite decr_pos by lia.
    replace (Z.of_nat (S n) - 1) with (Z.of_nat n) by lia.
    rewrite IH; [| lia | lia | right; by apply next_slot_lt].
    rewrite (take_from_slot_S n i _ x) by done.
    rewrite <- app_assoc. done.
Qed.

Lemma iterate_content cb (fuel : nat) :
  wf cb -> (Z.to_nat (count cb) <= fuel)%nat ->
  iterate fuel cb = Ret (Some (content cb)) cb.
Proof.
  intros [Hsz Hlen Hidx Hf] Hfuel.
  unfold iterate, CreateIterator, content, count, bind, gets, ret in *.
  destruct (full cb) eqn:Hfull.
  - specialize (Hf eq_refl).
    pose proof (drain_from_slot cb (Z.to_nat (size cb)) Hlen (proj2 Hsz)
                  fuel (Z.to_nat (index cb)) []) as Hd.
    rewrite !Z2Nat.id in Hd by lia. rewrite Hd by lia. simpl.
    rewrite take_ge; [done|]. rewrite length_from_slot. lia.
  - pose proof (drain_from_slot cb (Z.to_nat (index cb)) Hlen (proj2 Hsz)
                  fuel 0%nat []) as Hd.
    rewrite !Z2Nat.id in Hd by lia. change (Z.of_nat 0) with 0 in Hd.
    rewrite Hd by lia. rewrite from_slot_0. done.
Qed.

(** *** The content after an append *)

Lemma next_index_slot cb :
  wf cb -> 1 <= size cb ->
  Z.to_nat (next_index cb) = next_slot (Z.to_nat (index cb)) (data cb).
Proof.
  intros [Hsz Hlen Hidx _] Hpos. unfold next_index, next_slot.
  case_decide; destruct (Z.leb_spec (size cb) (index cb + 1)); lia.
Qed.

Lemma content_appended d cb :
  wf cb -> 1 <= size cb ->
  content (appended d cb) = last_n (size cb) (content cb ++ [d]).
Proof.
  intros Hwf Hpos. pose proof (next_index_slot cb Hwf Hpos) as Hnext.
  pose proof (length_content cb Hwf) as Hcount.
  destruct Hwf as [Hsz Hlen Hidx Hf].
  assert (Z.to_nat (index cb) < length (data cb))%nat as Hi by lia.
  destruct (lookup_lt_is_Some_2 _ _ Hi) as [x Hx].
  unfold last_n. rewrite length_app. simpl length.
  unfold content in *. unfold count in Hcount. simpl. rewrite Hnext.
  destruct (full cb) eqn:Hfull; simpl.
  - rewrite (from_slot_insert_next _ _ x) by done.
    f_equal. lia.
  - replace (length (take (Z.to_nat (index cb)) (data cb)) + 1
             - Z.to_nat (size cb))%nat with 0%nat by lia.
    rewrite drop_0.
    unfold next_slot.
    destruct (Z.leb_spec (size cb) (index cb + 1)) as [Hw|Hw]; case_decide; try lia.
    + rewrite from_slot_0. rewrite <- (take_insert_next _ _ d) by done.
      rewrite take_ge; [done|]. rewrite length_insert. lia.
    + by apply take_insert_next.
Qed.

Lemma count_appended d cb :
  wf cb -> 1 <= size cb ->
  count (appended d cb) = Z.min (size cb) (count cb + 1).
Proof.
  intros [Hsz Hlen Hidx Hf] Hpos. unfold count, appended, next_index. simpl.
  destruct (full cb); simpl; [lia|].
  destruct (Z.leb_spec (size cb) (index cb + 1)); lia.
Qed.

Lemma full_count cb :
  wf cb -> 1 <= size cb -> full cb = (size cb <=? count cb).
Proof.
  intros [Hsz Hlen Hidx Hf] Hpos. unfold count.
  destruct (full cb); symmetry; [apply Z.leb_le | apply Z.leb_gt]; lia.
Qed.

Lemma last_n_last_n (c : Z) (l k : list (iface V)) :
  last_n c (last_n c l ++ k) = last_n c (l ++ k).
Proof. unfold last_n. apply last_app_drop. Qed.

Lemma last_n_short (c : Z) (l : list (iface V)) :
  Z.of_nat (length l) <= c -> last_n c l = l.
Proof.
  intros Hl. unfold last_n.
  replace (length l - Z.to_nat c)%nat with 0%nat by lia. apply drop_0.
Qed.

(** Appending a sequence to a well-formed buffer: every call returns, and
    the live entries are the last [size] of the old ones followed by the
    new ones. *)
Lemma Appends_content ds cb :
  wf cb -> 1 <= size cb -> mutex cb = false ->
  exists cb',
    Appends ds cb = Ret tt cb' /\ wf cb' /\ mutex cb' = false /\
    size cb' = size cb /\
    content cb' = last_n (size cb) (content cb ++ ds) /\
    count cb' = Z.min (size cb) (count cb + Z.of_nat (length ds)).
Proof.
  revert cb. induction ds as [|d ds IH]; intros cb Hwf Hpos Hm.
  - exists cb. pose proof (length_content cb Hwf) as Hlen.
    assert (count cb <= size cb) as Hc.
    { destruct Hwf as [? ? ? ?]. unfold count. destruct (full cb); lia. }
    rewrite app_nil_r, last_n_short by lia. simpl.
    split_and!; try done. lia.
  - destruct (IH (appended d cb)) as (cb' & Hrun & Hwf' & Hm' & Hsz' & Hc' & Hn').
    { by apply wf_appended. }
    { done. }
    { done. }
    exists cb'. simpl Appends. unfold bind.
    rewrite Append_appended by done. rewrite Hrun.
    simpl in Hsz', Hc', Hn'.
    rewrite content_appended, last_n_last_n, <- app_assoc in Hc' by done.
    rewrite count_appended in Hn' by done.
    assert (0 <= count cb) as Hc0.
    { destruct Hwf as [? ? ? ?]. unfold count. destruct (full cb); lia. }
    split_and!; try done. simpl length. lia.
Qed.

(** *** Calls that cannot return, calls that change nothing *)

(** Without slots the first statement of [Append] is out of range; the
    deferred [Unlock] runs and the panic goes on. *)
Lemma Append_no_slot d cb :
  data cb = [] -> mutex cb = false -> Append d cb = Panic cb.
Proof.
  destruct cb as [dat f sz i m]. simpl. intros -> ->.
  unfold Append, bind, defer, Lock, gets, store_data. simpl.
  rewrite Slice_set_out by (simpl; lia). done.
Qed.

(** [AppendSafe] takes the mutex and then calls [Append], which waits
    for it. *)
Lemma AppendSafe_self_lock d cb :
  AppendSafe d cb = Blocked (set_mutex true cb).
Proof. destruct cb as [dat f sz i []]; reflexivity. Qed.

Lemma Get_iter_state st cb : state_of (Get_iter st cb) = cb.
Proof.
  destruct st as [i res]. unfold Get_iter, bind, load_data, gets, ret.
  destruct (Slice.get (data cb) i); done.
Qed.

Lemma Get_loop_state n st cb : state_of (Get_loop n st cb) = cb.
Proof.
  revert st. induction n as [|n IH]; intros st; [done|].
  rewrite Get_loop_S. pose proof (Get_iter_state st cb) as Hs.
  destruct (Get_iter st cb) as [st' cb'| |]; simpl in Hs; subst; [apply IH | done | done].
Qed.

(** [Get] never writes to the buffer, however it ends. *)
Lemma Get_state cb : state_of (Get cb) = cb.
Proof.
  unfold Get, Get_begin, bind, gets, ret, panic.
  destruct (full cb); simpl;
    match goal with |- context [?a <? 0] => destruct (a <? 0) end; simpl; try done;
    match goal with |- context [Get_loop ?n ?st cb] =>
      pose proof (Get_loop_state n st cb) as Hs;
      destruct (Get_loop n st cb); simpl in *; done
    end.
Qed.

Lemma reachable_wf cb : reachable cb -> wf cb /\ mutex cb = false.
Proof.
  induction 1 as [c cb Hc Hnew | c cb cb' Hr [Hwf Hm] Hcall].
  - unfold New, Slice.make in Hnew.
    destruct (Z.ltb_spec c 0); [done|]. injection Hnew as <-.
    split; [split|]; simpl; try done; try lia.
    rewrite length_replicate. lia.
  - destruct c as [d|d| | | | |]; unfold call, bind in Hcall.
    + destruct (decide (1 <= size cb)) as [Hpos|Hpos].
      * rewrite Append_appended in Hcall by done.
        injection Hcall as <-. split; [by apply wf_appended | done].
      * rewrite Append_no_slot in Hcall; [done| |done].
        destruct Hwf as [? Hlen ? ?]. apply length_zero_iff_nil. lia.
    + rewrite AppendSafe_self_lock in Hcall. done.
    + rewrite Get_content in Hcall by done. by injection Hcall as <-.
    + by injection Hcall as <-.
    + unfold CreateIterator, bind, gets, ret in Hcall.
      destruct (full cb); by injection Hcall as <-.
    + by injection Hcall as <-.
    + by injection Hcall as <-.
Qed.

(** A schedule without appends is [Get] itself. *)
Lemma run_schedule_alone (k : nat) cb :
  forall (left : nat) st,
    match run_schedule (replicate k StepGet) left st cb with
    | Ret r cb' => Get_loop (fst r) (snd r) cb'
    | Panic cb' => Panic cb'
    | Blocked cb' => Blocked cb'
    end = Get_loop left st cb.
Proof.
  induction k as [|k IH]; intros left st; [done|].
  simpl replicate. simpl run_schedule. destruct left as [|left].
  - apply IH.
  - rewrite Get_loop_S. unfold bind.
    pose proof (Get_iter_state st cb) as Hs.
    destruct (Get_iter st cb) as [st' cb'| |]; simpl in Hs; subst; [apply IH | done | done].
Qed.

Lemma Get_among_alone (k : nat) cb :
  Get_among (replicate k StepGet) cb = Get cb.
Proof.
  unfold Get_among, Get, bind.
  destruct (Get_begin cb) as [ic cb'| |]; try done.
  pose proof (run_schedule_alone k cb' (Z.to_nat (snd ic)) (fst ic, [])) as Hk.
  destruct (run_schedule (replicate k StepGet) (Z.to_nat (snd ic)) (fst ic, []) cb')
    as [r cb''| |]; rewrite <- Hk; done.
Qed.

Lemma reachable_Appends ds cb cb' :
  reachable cb -> Appends ds cb = Ret tt cb' -> reachable cb'.
Proof.
  revert cb. induction ds as [|d ds IH]; intros cb Hr Hrun.
  - by injection Hrun as <-.
  - simpl in Hrun. unfold bind in Hrun.
    destruct (Append d cb) as [i cb1| |] eqn:Ha; try done.
    apply (IH cb1); [|done].
    apply (reachable_call (CallAppend d) cb); [done|].
    unfold call, bind. rewrite Ha. done.
Qed.

Lemma state_of_ignore {A} (m : M V A) cb :
  state_of (bind m (fun _ => ret tt) cb) = state_of (m cb).
Proof. unfold bind. destruct (m cb); done. Qed.

(** Wherever [Append] stops, the cursor is in range and the size is the
    one the buffer was made with. *)
Lemma Append_cursor d cb :
  size cb <= int_max -> cursor_inv cb ->
  cursor_inv (state_of (Append d cb))
  /\ size (state_of (Append d cb)) = size cb.
Proof.
  unfold cursor_inv. destruct cb as [dat f sz i m]. simpl. intros Hmax Hi.
  unfold Append, bind, defer, Lock, gets, store_data, modify, ret. simpl.
  destruct m; simpl; [lia|].
  destruct (Slice.set dat i d); simpl; [|lia].
  rewrite (incr_lt i sz) by lia.
  destruct (Z.leb_spec sz (i + 1)); simpl; lia.
Qed.

Lemma Append_full d cb :
  full cb = true -> full (state_of (Append d cb)) = true.
Proof.
  destruct cb as [dat f sz i m]. simpl. intros ->.
  unfold Append, bind, defer, Lock, gets, store_data, modify, ret. simpl.
  destruct m; simpl; [done|].
  destruct (Slice.set dat i d); simpl; [|done].
  destruct (sz <=? incr i); done.
Qed.

Lemma Call_cases (op : Call V) :
  (exists d, op = CallAppend d) \/ (forall d, op <> CallAppend d).
Proof. destruct op; [left; eauto | right; intros ? ?; discriminate ..]. Qed.

(** What every call but [Append] leaves of the buffer. *)
Lemma call_reader c cb :
  (forall d, c <> CallAppend d) ->
  state_of (call c cb) = cb
  \/ (exists d, c = CallAppendSafe d) /\ state_of (call c cb) = set_mutex true cb.
Proof.
  intros Hc. destruct c as [d|d| | | | |]; unfold call; rewrite state_of_ignore.
  - by destruct (Hc d).
  - right. rewrite AppendSafe_self_lock. eauto.
  - left. apply Get_state.
  - by left.
  - left. unfold CreateIterator, bind, gets, ret. by destruct (full cb).
  - by left.
  - by left.
Qed.

End Methods.

(** ** The properties of the specification *)

Section Specification.

Context {V : Type}.
Implicit Types (cb : CyclicBuffer V) (d : iface V) (ds : list (iface V)).

Lemma New_wf (c : Z) :
  0 <= c <= int_max ->
  exists cb0 : CyclicBuffer V,
    New c = Some cb0 /\ reachable cb0 /\ size cb0 = c /\
    index cb0 = 0 /\ full cb0 = false /\ content cb0 = [].
Proof.
  intros Hc. unfold New, Slice.make.
  destruct (Z.ltb_spec c 0) as [|_]; [lia|].
  eexists. split; [reflexivity|]. split_and!; try done.
  apply (reachable_New c); [lia|].
  unfold New, Slice.make. destruct (Z.ltb_spec c 0); [lia|done].
Qed.

(** C1: for every capacity [c >= 1] and every sequence [ds] of [n]
    appended values, nothing else interleaved, [Get] returns [ds] itself
    when [n < c] and the last [c] values of [ds], oldest first (the values
    [n-c, n) of the append sequence), when [n >= c].  With capacity 3,
    appending [a, b, c, d] leaves [b, c, d], and appending [e] next leaves
    [c, d, e]. *)
Theorem Get_after_appends :
  (forall (c : Z) ds,
      1 <= c <= int_max ->
      exists cb0 cb : CyclicBuffer V,
        New c = Some cb0 /\ Appends ds cb0 = Ret tt cb /\
        Get cb = Ret (if Z.of_nat (length ds) <? c then ds
                      else drop (length ds - Z.to_nat c) ds) cb)
  /\ (forall a b c d e : iface V,
        exists cb0 cb4 cb5 i,
          New 3 = Some cb0 /\
          Appends [a; b; c; d] cb0 = Ret tt cb4 /\
          Get cb4 = Ret [b; c; d] cb4 /\
          Append e cb4 = Ret i cb5 /\
          Get cb5 = Ret [c; d; e] cb5).
Proof.
  split.
  - intros c ds Hc.
    destruct (New_wf c) as (cb0 & Hnew & Hr & Hsz & Hi & Hf & Hcont); [lia|].
    destruct (reachable_wf cb0 Hr) as [Hwf Hm].
    destruct (Appends_content ds cb0 Hwf) as (cb & Hrun & Hwf' & _ & _ & Hc' & _);
      [lia | done |].
    exists cb0, cb. split_and!; try done.
    rewrite Get_content by done. f_equal.
    rewrite Hc', Hcont, Hsz. simpl. unfold last_n.
    destruct (Z.ltb_spec (Z.of_nat (length ds)) c); [|done].
    replace (length ds - Z.to_nat c)%nat with 0%nat by lia. apply drop_0.
  - intros a b c d e.
    exists (mkCyclicBuffer [None; None; None] false 3 0 false),
           (mkCyclicBuffer [d; b; c] true 3 1 false),
           (mkCyclicBuffer [d; e; c] true 3 2 false), 2.
    split_and!; reflexivity.
Qed.

(** C2: on every reachable buffer, creating an iterator and collecting
    [Value()] while [Next()] answers true, with no append in between,
    ends (any bound of at least the number of live entries is enough) and
    collects the sequence a single [Get] returns, in the same
    oldest-to-newest order. *)
Theorem iterate_eq_Get cb :
  reachable cb ->
  exists r,
    Get cb = Ret r cb /\ r = content cb /\
    forall fuel : nat,
      (Z.to_nat (count cb) <= fuel)%nat ->
      iterate fuel cb = Ret (Some r) cb.
Proof.
  intros Hr. destruct (reachable_wf cb Hr) as [Hwf _].
  exists (content cb). split_and!.
  - by apply Get_content.
  - done.
  - intros fuel Hfuel. by apply iterate_content.
Qed.

(** C3: on a reachable buffer of capacity at least 1 with write cursor
    [i], [Append d] returns; it writes [d] into slot [i] and leaves the
    other slots as they are, moves the cursor to [(i+1) mod size], sets
    [full] exactly when the cursor wraps to 0 and never clears it, and
    returns the new cursor.  On a full buffer the value is not rejected:
    the oldest live entry goes and [d] becomes the newest.  The first
    revision of [Append] does the same and returns nothing. *)
Theorem Append_spec cb d :
  reachable cb -> 1 <= size cb ->
  exists cb',
    Append d cb = Ret (index cb') cb' /\
    Append_v0 d cb = Ret tt cb' /\
    reachable cb' /\
    data cb' !! Z.to_nat (index cb) = Some d /\
    (forall j : nat, j <> Z.to_nat (index cb) -> data cb' !! j = data cb !! j) /\
    length (data cb') = length (data cb) /\
    size cb' = size cb /\
    index cb' = (index cb + 1) `mod` size cb /\
    full cb' = full cb || (index cb' =? 0) /\
    content cb' = last_n (size cb) (content cb ++ [d]) /\
    (full cb = true -> content cb' = drop 1 (content cb) ++ [d]).
Proof.
  intros Hr Hpos. destruct (reachable_wf cb Hr) as [Hwf Hm].
  pose proof (Append_appended d cb Hwf Hpos Hm) as Happ.
  pose proof (content_appended d cb Hwf Hpos) as Hcont.
  pose proof (length_content cb Hwf) as Hcount.
  exists (appended d cb). destruct Hwf as [Hsz Hlen Hidx Hf].
  assert (next_index cb = (index cb + 1) `mod` size cb) as Hmod.
  { unfold next_index. destruct (Z.leb_spec (size cb) (index cb + 1)).
    - replace (index cb + 1) with (size cb) by lia.
      by rewrite Z_mod_same_full.
    - rewrite Z.mod_small; lia. }
  split_and!; try done.
  - destruct cb as [dat f sz i m]. simpl in *. subst m.
    unfold Append_v0, bind, defer, Lock, gets, store_data, modify, ret. simpl.
    rewrite Slice_set_in by lia. simpl.
    rewrite (incr_lt i sz) by lia.
    unfold appended, next_index. simpl.
    destruct (sz <=? i + 1); simpl; rewrite ?orb_true_r, ?orb_false_r; reflexivity.
  - apply (reachable_call (CallAppend d) cb); [done|].
    unfold call, bind. rewrite Happ. done.
  - simpl. apply list_lookup_insert_eq. lia.
  - intros j Hj. simpl. by apply list_lookup_insert_ne.
  - simpl. apply length_insert.
  - unfold appended, next_index. simpl. f_equal.
    destruct (Z.leb_spec (size cb) (index cb + 1)); [done|].
    symmetry. apply Z.eqb_neq. lia.
  - intros Hfull. rewrite Hcont. unfold last_n, count in *.
    rewrite Hfull in Hcount. rewrite length_app. simpl length.
    replace (length (content cb) + 1 - Z.to_nat (size cb))%nat with 1%nat by lia.
    destruct (content cb); [simpl in Hcount; lia | done].
Qed.

(** C5 (the code does otherwise): [AppendSafe] locks the mutex and then
    calls [Append], whose first statement locks the same mutex again.  The
    second [Lock] finds the mutex held by the caller itself, so the call
    never returns, whatever the buffer: it ends blocked, the mutex held
    and nothing appended. *)
Theorem AppendSafe_deadlocks d cb :
  AppendSafe d cb = Blocked (set_mutex true cb) /\
  returns (AppendSafe d cb) = false /\
  mutex (state_of (AppendSafe d cb)) = true /\
  data (state_of (AppendSafe d cb)) = data cb /\
  Append d (set_mutex true cb) = Blocked (set_mutex true cb).
Proof.
  rewrite AppendSafe_self_lock. split_and!; try done.
Qed.

(** C6, amended: [New] has no error result.  For every capacity
    [c >= 0], 0 included, it returns a buffer with [c] unset slots, the
    cursor at 0 and [full] false; the buffer of capacity 0 has no slot
    and every [Append] on it panics.  For a negative capacity [make]
    panics. *)
Theorem New_outcomes (c : Z) :
  (0 <= c ->
   exists cb0 : CyclicBuffer V,
     New c = Some cb0 /\
     data cb0 = replicate (Z.to_nat c) None /\
     Z.of_nat (length (data cb0)) = c /\
     size cb0 = c /\ index cb0 = 0 /\ full cb0 = false /\
     mutex cb0 = false /\
     (c = 0 -> forall d, Append d cb0 = Panic cb0))
  /\ (c < 0 -> New (V:=V) c = None).
Proof.
  unfold New, Slice.make. split; intros Hc.
  - destruct (Z.ltb_spec c 0); [lia|].
    eexists. split; [reflexivity|]. simpl. split_and!; try done.
    + rewrite length_replicate. lia.
    + intros -> d. by apply Append_no_slot.
  - destruct (Z.ltb_spec c 0); [done|lia].
Qed.

(** C7, amended: on a reachable buffer of capacity at least 1, [Value()]
    on an exhausted iterator (nothing left, cursor in range) does not
    fail: it returns what the slot under the cursor holds, moves the
    cursor on modulo the capacity and leaves -1 entries, so [Next()]
    still answers false.  Only on the buffer of capacity 0 does it
    panic. *)
Theorem Value_exhausted cb (it : Iterator) :
  reachable cb ->
  (1 <= size cb -> 0 <= it_index it < size cb -> it_count it = 0 ->
   exists x,
     data cb !! Z.to_nat (it_index it) = Some x /\
     Value it cb
     = Ret (x, mkIterator ((it_index it + 1) `mod` size cb) (-1)) cb /\
     Next (mkIterator ((it_index it + 1) `mod` size cb) (-1)) = false)
  /\ (size cb = 0 -> Value it cb = Panic cb).
Proof.
  intros Hr. destruct (reachable_wf cb Hr) as [[Hsz Hlen Hidx Hf] Hm].
  split.
  - intros Hpos Hi Hc. destruct it as [i n]. simpl in *. subst n.
    assert (Z.to_nat i < length (data cb))%nat as Hlt by lia.
    destruct (lookup_lt_is_Some_2 _ _ Hlt) as [x Hx].
    exists x. split_and!; try done.
    unfold Value, bind, load_data, gets, ret. simpl.
    rewrite Slice_get_in by lia. rewrite Hx.
    rewrite (incr_lt i (size cb)) by lia.
    do 3 f_equal.
    destruct (Z.leb_spec (size cb) (i + 1)).
    + replace (i + 1) with (size cb) by lia. by rewrite Z_mod_same_full.
    + rewrite Z.mod_small; lia.
  - intros H0. unfold Value, bind, load_data.
    rewrite Slice_get_out by lia. done.
Qed.

(** C8: a buffer made with capacity at least 1 has
    [0 <= index < size]; every call of the public interface leaves a
    buffer with the same size and the cursor in range, however the call
    ends; so every reachable buffer of capacity at least 1 has its cursor
    in range.  An iterator made on such a buffer has its cursor in
    [0, size), and every [Value()] returns and keeps it there. *)
Theorem cursor_invariant :
  (forall c : Z,
      1 <= c <= int_max ->
      exists cb0 : CyclicBuffer V,
        New c = Some cb0 /\ size cb0 = c /\ cursor_inv cb0)
  /\ (forall (op : Call V) cb,
        size cb <= int_max -> cursor_inv cb ->
        cursor_inv (state_of (call op cb))
        /\ size (state_of (call op cb)) = size cb)
  /\ (forall cb, reachable cb -> 1 <= size cb -> cursor_inv cb)
  /\ (forall cb,
        reachable cb -> 1 <= size cb ->
        exists it, CreateIterator cb = Ret it cb
                   /\ 0 <= it_index it < size cb)
  /\ (forall cb (it : Iterator),
        reachable cb -> 0 <= it_index it < size cb ->
        exists x it', Value it cb = Ret (x, it') cb
                      /\ 0 <= it_index it' < size cb).
Proof.
  split_and!.
  - intros c Hc. destruct (New_wf c) as (cb0 & Hnew & _ & Hsz & Hi & _); [lia|].
    exists cb0. unfold cursor_inv. split_and!; try done; lia.
  - intros op cb Hmax Hinv.
    destruct (Call_cases op) as [[d ->]|Hop].
    + unfold call. rewrite state_of_ignore. by apply Append_cursor.
    + by destruct (call_reader op cb Hop) as [->|[_ ->]].
  - intros cb Hr Hpos. destruct (reachable_wf cb Hr) as [[? ? ? ?] _].
    unfold cursor_inv. lia.
  - intros cb Hr Hpos. destruct (reachable_wf cb Hr) as [[? ? ? ?] _].
    unfold CreateIterator, bind, gets, ret.
    destruct (full cb); eexists; (split; [reflexivity|]); simpl; lia.
  - intros cb [i n] Hr Hi. simpl in Hi.
    destruct (reachable_wf cb Hr) as [[Hsz Hlen Hidx Hf] _].
    assert (Z.to_nat i < length (data cb))%nat as Hlt by lia.
    destruct (lookup_lt_is_Some_2 _ _ Hlt) as [x Hx].
    unfold Value, bind, load_data, gets, ret. simpl.
    rewrite Slice_get_in by lia. rewrite Hx.
    rewrite (incr_lt i (size cb)) by lia.
    eexists _, _. split; [reflexivity|]. simpl.
    destruct (Z.leb_spec (size cb) (i + 1)); lia.
Qed.

(** C9: on every reachable buffer [Empty()] returns true exactly when
    [full] is false and the write cursor is 0, that is when the logical
    count is zero, and [NotEmpty()] returns the negation; after [n < c]
    appends to a new buffer of capacity [c >= 1], [Empty()] is
    [n == 0]. *)
Theorem Empty_spec :
  (forall cb,
      reachable cb ->
      exists b : bool,
        Empty cb = Ret b cb /\ NotEmpty cb = Ret (negb b) cb /\
        (b = true <-> full cb = false /\ index cb = 0) /\
        (b = true <-> count cb = 0))
  /\ (forall (c : Z) ds,
        1 <= c <= int_max -> Z.of_nat (length ds) < c ->
        exists cb0 cb : CyclicBuffer V,
          New c = Some cb0 /\ Appends ds cb0 = Ret tt cb /\
          count cb = Z.of_nat (length ds) /\
          Empty cb = Ret (Z.of_nat (length ds) =? 0) cb).
Proof.
  assert (forall cb, Empty cb = Ret (negb (full cb || (0 <? index cb))) cb) as HE
    by done.
  split.
  - intros cb Hr. destruct (reachable_wf cb Hr) as [[Hsz Hlen Hidx Hf] _].
    exists (negb (full cb || (0 <? index cb))).
    rewrite negb_involutive. unfold count.
    split_and!; try done;
      rewrite negb_true_iff, orb_false_iff, Z.ltb_ge.
    + split; intros [Hfull Hi]; (split; [done|lia]).
    + destruct (full cb).
      * specialize (Hf eq_refl). split; [by intros [? _] | lia].
      * split; [intros [_ Hi] | intros Hi; split; [done|]]; lia.
  - intros c ds Hc Hn.
    destruct (New_wf c) as (cb0 & Hnew & Hr & Hsz & Hi & Hf & _); [lia|].
    destruct (reachable_wf cb0 Hr) as [Hwf Hm].
    destruct (Appends_content ds cb0 Hwf) as (cb & Hrun & Hwf' & _ & Hsz' & _ & Hcnt);
      [lia | done |].
    assert (count cb0 = 0) as Hc0 by (unfold count; by rewrite Hf, Hi).
    rewrite Hc0, Hsz in Hcnt.
    assert (count cb = Z.of_nat (length ds)) as Hcount by lia.
    exists cb0, cb. split_and!; try done.
    rewrite HE. f_equal.
    pose proof (full_count cb Hwf') as Hfc. rewrite Hsz', Hsz in Hfc.
    rewrite Hfc by lia. unfold count in Hcount. rewrite Hfc in Hcount by lia.
    destruct (Z.leb_spec c (count cb)); [lia|]. simpl.
    rewrite Hcount.
    destruct (Z.ltb_spec 0 (Z.of_nat (length ds))),
             (Z.eqb_spec (Z.of_nat (length ds)) 0); simpl; try done; lia.
Qed.

(** C10: [full] is false in a new buffer; a call of the public interface
    never takes it from true back to false, however the call ends; and
    no call but [Append] changes it at all.  So it stays true through any
    sequence of appends. *)
Theorem full_monotone :
  (forall (c : Z) (cb0 : CyclicBuffer V), New c = Some cb0 -> full cb0 = false)
  /\ (forall (op : Call V) cb,
        full cb = true -> full (state_of (call op cb)) = true)
  /\ (forall (op : Call V) cb,
        (forall d, op <> CallAppend d) ->
        full (state_of (call op cb)) = full cb)
  /\ (forall ds cb cb',
        full cb = true -> Appends ds cb = Ret tt cb' -> full cb' = true).
Proof.
  split_and!.
  - intros c cb0. unfold New. destruct (Slice.make _ c); [|done].
    by intros [= <-].
  - intros op cb Hf.
    destruct (Call_cases op) as [[d ->]|Hop].
    + unfold call. rewrite state_of_ignore. by apply Append_full.
    + by destruct (call_reader op cb Hop) as [->|[_ ->]].
  - intros op cb Hop. by destruct (call_reader op cb Hop) as [->|[_ ->]].
  - intros ds. induction ds as [|d ds IH]; intros cb cb' Hf Hrun.
    + by injection Hrun as <-.
    + simpl in Hrun. unfold bind in Hrun.
      pose proof (Append_full d cb Hf) as Hf1.
      destruct (Append d cb) as [i cb1| |]; try done.
      by apply (IH cb1).
Qed.

End Specification.

(** ** The wraparound example, run *)

Section Runs.

Import Example.

Lemma reachable_empty3 : reachable empty3.
Proof. apply (reachable_New 3); [unfold int_max; lia | reflexivity]. Qed.

Lemma reachable_abc : reachable abc.
Proof. apply (reachable_Appends [A; B; C] empty3); [apply reachable_empty3 | reflexivity]. Qed.

Lemma reachable_abcd : reachable abcd.
Proof. apply (reachable_Appends [D] abc); [apply reachable_abc | reflexivity]. Qed.

(** C4 (the code does otherwise): [Append] runs between [Lock] and the
    deferred [Unlock], but [Get] never touches the mutex: it returns while
    the mutex is held, where [Append] waits.  So appends run between the
    turns of its loop.  On the buffer holding [A, B, C] (capacity 3), a
    [Get] that has copied slot 0 when [Append(D)] and [Append(E)] run
    returns [A, E, C], which the buffer never held: it held [A, B, C],
    then [B, C, D], then [C, D, E]. *)
Theorem Get_unlocked_torn :
  New 3 = Some empty3 /\
  Appends [A; B; C] empty3 = Ret tt abc /\
  Get (set_mutex true abc) = Ret [A; B; C] (set_mutex true abc) /\
  Append D (set_mutex true abc) = Blocked (set_mutex true abc) /\
  Get_among [StepGet; StepAppend D; StepAppend E] abc
  = Ret [A; E; C] abcde /\
  contents_along [StepGet; StepAppend D; StepAppend E] abc
  = [[A; B; C]; [B; C; D]; [C; D; E]] /\
  ~ In [A; E; C] (contents_along [StepGet; StepAppend D; StepAppend E] abc).
Proof.
  split_and!; try reflexivity.
  intros Hin. simpl in Hin.
  destruct Hin as [H|[H|[H|[]]]]; discriminate H.
Qed.

(** C6, as stated, fails at capacity 0: [New(0)] returns a buffer. *)
Lemma New_zero_not_rejected :
  New (V:=string) 0 = Some (mkCyclicBuffer [] false 0 0 false) /\
  ~ (forall c : Z, c <= 0 -> New (V:=string) c = None).
Proof.
  split; [reflexivity|]. intros H. specialize (H 0). by discriminate H.
Qed.

(** C7, as stated, fails on the buffer holding [B, C, D] (capacity 3):
    the iterator yields [B], [C], [D], answers false to [Next()], and
    the next [Value()] returns [B] again. *)
Lemma Value_past_end_returns :
  CreateIterator abcd = Ret (mkIterator 1 3) abcd /\
  Value (mkIterator 1 3) abcd = Ret (B, mkIterator 2 2) abcd /\
  Value (mkIterator 2 2) abcd = Ret (C, mkIterator 0 1) abcd /\
  Value (mkIterator 0 1) abcd = Ret (D, drained) abcd /\
  Next drained = false /\
  Value drained abcd = Ret (B, mkIterator 2 (-1)) abcd /\
  returns (Value drained abcd) = true.
Proof. split_and!; reflexivity. Qed.

(** *** Instances *)

Lemma Get_after_appends_witness :
  1 <= 3 <= int_max /\
  exists cb0 cb : CyclicBuffer string,
    New 3 = Some cb0 /\ Appends [A; B; C; D] cb0 = Ret tt cb /\
    Get cb = Ret [B; C; D] cb.
Proof.
  assert (1 <= 3 <= int_max) as H by (unfold int_max; lia).
  split; [exact H|].
  exact (proj1 Get_after_appends 3 [A; B; C; D] H).
Defined.

Lemma iterate_eq_Get_witness :
  reachable abcd /\
  exists r,
    Get abcd = Ret r abcd /\ r = content abcd /\
    forall fuel : nat,
      (Z.to_nat (count abcd) <= fuel)%nat ->
      iterate fuel abcd = Ret (Some r) abcd.
Proof.
  split; [apply reachable_abcd|].
  apply (iterate_eq_Get abcd). apply reachable_abcd.
Defined.

Lemma Append_spec_witness :
  reachable abc /\ 1 <= size abc /\
  exists cb',
    Append D abc = Ret (index cb') cb' /\ content cb' = [B; C; D].
Proof.
  assert (1 <= size abc) as H by (simpl; lia).
  split; [apply reachable_abc|]. split; [exact H|].
  destruct (Append_spec abc D reachable_abc H)
    as (cb' & Happ & _ & _ & _ & _ & _ & _ & _ & _ & Hcont & _).
  exists cb'. split; [exact Happ | exact Hcont].
Defined.

Lemma New_outcomes_witness :
  0 <= 0 /\ -1 < 0 /\
  (exists cb0 : CyclicBuffer string,
      New 0 = Some cb0 /\ forall d, Append d cb0 = Panic cb0) /\
  New (V:=string) (-1) = None.
Proof.
  split; [lia|]. split; [lia|]. split.
  - destruct (proj1 (New_outcomes (V:=string) 0)) as (cb0 & Hnew & H);
      [lia|].
    exists cb0. split; [exact Hnew|].
    apply H. reflexivity.
  - apply (proj2 (New_outcomes (V:=string) (-1))). lia.
Defined.

Lemma Value_exhausted_witness :
  reachable abcd /\ 1 <= size abcd /\
  0 <= it_index drained < size abcd /\ it_count drained = 0 /\
  exists x,
    data abcd !! Z.to_nat (it_index drained) = Some x /\
    Value drained abcd = Ret (x, mkIterator 2 (-1)) abcd /\
    Next (mkIterator 2 (-1)) = false.
Proof.
  assert (1 <= size abcd) as H1 by (simpl; lia).
  assert (0 <= it_index drained < size abcd) as H2 by (simpl; lia).
  split; [apply reachable_abcd|]. split; [exact H1|].
  split; [exact H2|]. split; [reflexivity|].
  exact (proj1 (Value_exhausted abcd drained reachable_abcd) H1 H2 eq_refl).
Defined.

Lemma cursor_invariant_witness :
  size abc <= int_max /\ cursor_inv abc /\
  cursor_inv (state_of (call (CallAppend D) abc)) /\
  size (state_of (call (CallAppend D) abc)) = size abc.
Proof.
  assert (size abc <= int_max) as H1 by (unfold int_max; simpl; lia).
  assert (cursor_inv abc) as H2 by (unfold cursor_inv; simpl; lia).
  split; [exact H1|]. split; [exact H2|].
  exact (proj1 (proj2 cursor_invariant) (CallAppend D) abc H1 H2).
Defined.

Lemma Empty_spec_witness :
  1 <= 3 <= int_max /\ Z.of_nat (length [A; B]) < 3 /\
  exists cb0 cb : CyclicBuffer string,
    New 3 = Some cb0 /\ Appends [A; B] cb0 = Ret tt cb /\
    count cb = 2 /\ Empty cb = Ret false cb.
Proof.
  assert (1 <= 3 <= int_max) as H1 by (unfold int_max; lia).
  assert (Z.of_nat (length [A; B]) < 3) as H2 by (simpl; lia).
  split; [exact H1|]. split; [exact H2|].
  exact (proj2 Empty_spec 3 [A; B] H1 H2).
Defined.

Lemma full_monotone_witness :
  full abc = true /\ full (state_of (call (CallAppend D) abc)) = true.
Proof.
  split; [reflexivity|].
  exact (proj1 (proj2 full_monotone) (CallAppend D) abc eq_refl).
Defined.

End Runs.

(** ** Further properties of the methods *)

Section Further.

Context {V : Type}.
Implicit Types (cb : CyclicBuffer V) (d : iface V) (ds : list (iface V)).

Lemma decr_in z : int_min < z <= int_max -> decr z = z - 1.
Proof.
  unfold decr. intros Hz. apply wrap_id.
  unfold is_int, int_min, int_max in *. lia.
Qed.

Lemma Values_S k it acc cb :
  Values (S k) it acc cb =
  match Value it cb with
  | Ret vi cb' => Values k (snd vi) (acc ++ [fst vi]) cb'
  | Panic cb' => Panic cb'
  | Blocked cb' => Blocked cb'
  end.
Proof. reflexivity. Qed.

(** [k] calls of [Value] from slot [i] read the ring from [i], whatever
    the iterator believes is left. *)
Lemma Values_from_slot cb (k : nat) :
  Z.of_nat (length (data cb)) = size cb -> size cb <= int_max ->
  forall (i : nat) (n : Z) (acc : list (iface V)),
    (k <= length (data cb))%nat ->
    (k = 0%nat \/ i < length (data cb))%nat ->
    int_min + Z.of_nat k <= n <= int_max ->
    exists j : Z,
      Values k (mkIterator (Z.of_nat i) n) acc cb
      = Ret (acc ++ take k (from_slot i (data cb)),
             mkIterator j (n - Z.of_nat k)) cb.
Proof.
  intros Hlen Hmax. induction k as [|k IH]; intros i n acc Hk Hi Hn.
  - exists (Z.of_nat i). simpl. rewrite take_0, app_nil_r, Z.sub_0_r. done.
  - destruct Hi as [|Hi]; [lia|].
    destruct (lookup_lt_is_Some_2 _ _ Hi) as [x Hx].
    destruct (IH (next_slot i (data cb)) (n - 1) (acc ++ [x])) as [j Hj];
      [lia | right; by apply next_slot_lt | lia |].
    exists j. rewrite Values_S, (Value_in i n x) by done. simpl.
    rewrite decr_in by lia. rewrite Hj.
    rewrite (take_from_slot_S k i _ x) by done.
    rewrite <- app_assoc. do 3 f_equal. lia.
Qed.

Lemma next_index_mod cb :
  wf cb -> 1 <= size cb -> next_index cb = (index cb + 1) `mod` size cb.
Proof.
  intros [Hsz Hlen Hidx _] Hpos. unfold next_index.
  destruct (Z.leb_spec (size cb) (index cb + 1)).
  - replace (index cb + 1) with (size cb) by lia. by rewrite Z_mod_same_full.
  - rewrite Z.mod_small; lia.
Qed.

Lemma Appends_index ds :
  forall cb cb',
    wf cb -> 1 <= size cb -> mutex cb = false ->
    Appends ds cb = Ret tt cb' ->
    index cb' = (index cb + Z.of_nat (length ds)) `mod` size cb.
Proof.
  induction ds as [|d ds IH]; intros cb cb' Hwf Hpos Hm Hrun.
  - injection Hrun as <-. destruct Hwf as [? ? ? ?].
    simpl. rewrite Z.add_0_r, Z.mod_small; lia.
  - simpl in Hrun. unfold bind in Hrun.
    rewrite Append_appended in Hrun by done.
    apply IH in Hrun; [|by apply wf_appended|done|done].
    rewrite Hrun. simpl index. simpl size.
    rewrite next_index_mod by done.
    rewrite Zplus_mod_idemp_l. f_equal. simpl length. lia.
Qed.

Lemma from_slot_insert_same {A} (i : nat) (l : list A) (x d : A) :
  l !! i = Some x ->
  from_slot i (<[i:=d]> l) = d :: drop 1 (from_slot i l).
Proof.
  intros Hx. pose proof (lookup_lt_Some _ _ _ Hx) as Hi.
  rewrite insert_take_drop by done.
  assert (length (take i l) = i) as Hti by (rewrite length_take; lia).
  unfold from_slot. rewrite drop_app_length', take_app_length' by done.
  rewrite (drop_S _ _ _ Hx). simpl. by rewrite drop_0.
Qed.

Lemma from_slot_back {A} (i : nat) (l : list A) :
  (i <= length l)%nat -> from_slot (length l - i) (from_slot i l) = l.
Proof.
  intros Hi. unfold from_slot at 1.
  assert (length (drop i l) = (length l - i)%nat) as Hd
    by (rewrite length_drop; lia).
  unfold from_slot. rewrite drop_app_length', take_app_length' by done.
  apply take_drop.
Qed.

(** X1: the buffer is a sliding window.  On a reachable buffer of capacity
    at least 1 whose [Get] returns [l], appending the values [ds] one after
    the other returns every time, and [Get] then returns the last [size]
    values of [l ++ ds]. *)
Theorem Get_sliding_window cb ds :
  reachable cb -> 1 <= size cb ->
  exists l cb',
    Get cb = Ret l cb /\ Appends ds cb = Ret tt cb' /\ reachable cb' /\
    Get cb' = Ret (last_n (size cb) (l ++ ds)) cb'.
Proof.
  intros Hr Hpos. destruct (reachable_wf cb Hr) as [Hwf Hm].
  destruct (Appends_content ds cb Hwf Hpos Hm)
    as (cb' & Hrun & Hwf' & _ & _ & Hc & _).
  exists (content cb), cb'.
  split; [by apply Get_content|]. split; [done|].
  split; [by apply (reachable_Appends ds cb)|].
  rewrite Get_content by done. by rewrite Hc.
Qed.

(** X2: the bookkeeping after [n] appends to a new buffer of capacity
    [c >= 1]: the write cursor is [n mod c], [full] is [c <= n], and the
    number of live entries, which is the length of what [Get] returns, is
    [min c n]. *)
Theorem cursor_after_appends (c : Z) ds :
  1 <= c <= int_max ->
  exists (cb0 cb : CyclicBuffer V) l,
    New c = Some cb0 /\ Appends ds cb0 = Ret tt cb /\
    size cb = c /\
    index cb = Z.of_nat (length ds) `mod` c /\
    full cb = (c <=? Z.of_nat (length ds)) /\
    count cb = Z.min c (Z.of_nat (length ds)) /\
    Get cb = Ret l cb /\
    Z.of_nat (length l) = Z.min c (Z.of_nat (length ds)).
Proof.
  intros Hc.
  destruct (New_wf (V:=V) c) as (cb0 & Hnew & Hr & Hsz & Hi & Hf & _); [lia|].
  destruct (reachable_wf cb0 Hr) as [Hwf Hm].
  destruct (Appends_content ds cb0 Hwf) as (cb & Hrun & Hwf' & _ & Hsz' & _ & Hcnt);
    [lia | done |].
  pose proof (Appends_index ds cb0 cb Hwf) as Hidx.
  rewrite Hi, Hsz in Hidx. simpl in Hidx.
  assert (count cb0 = 0) as Hc0 by (unfold count; by rewrite Hf, Hi).
  rewrite Hc0, Hsz in Hcnt. simpl in Hcnt.
  exists cb0, cb, (content cb).
  split_and!; try done.
  - lia.
  - apply Hidx; [lia|done|done].
  - rewrite (full_count cb) by (done || lia). rewrite Hsz', Hsz, Hcnt.
    destruct (Z.leb_spec c (Z.min c (Z.of_nat (length ds)))),
             (Z.leb_spec c (Z.of_nat (length ds))); try done; lia.
  - by apply Get_content.
  - rewrite length_content by done. done.
Qed.

(** X3: [Append] on a free mutex never waits and never leaves the mutex
    held.  It returns when the write cursor is inside the slice; when it is
    not (a buffer made with capacity 0) the assignment panics, the deferred
    [Unlock] runs, and the buffer is left exactly as it was. *)
Theorem Append_panic_safe d cb :
  mutex cb = false ->
  waits (Append d cb) = false /\
  mutex (state_of (Append d cb)) = false /\
  (Slice.in_range (data cb) (index cb) = true -> returns (Append d cb) = true) /\
  (Slice.in_range (data cb) (index cb) = false -> Append d cb = Panic cb).
Proof.
  destruct cb as [dat f sz i m]. simpl. intros ->.
  unfold Append, bind, defer, Lock, gets, store_data, modify, ret, Slice.set.
  simpl. destruct (Slice.in_range dat i); simpl.
  - destruct (sz <=? incr i); simpl; split_and!; done.
  - split_and!; done.
Qed.

Lemma Get_iter_cases st cb :
  (exists st', Get_iter st cb = Ret st' cb) \/ Get_iter st cb = Panic cb.
Proof.
  destruct st as [i res]. unfold Get_iter, bind, load_data, gets, ret.
  destruct (Slice.get (data cb) i); eauto.
Qed.

Lemma Get_loop_cases n st cb :
  (exists st', Get_loop n st cb = Ret st' cb) \/ Get_loop n st cb = Panic cb.
Proof.
  revert st. induction n as [|n IH]; intros st.
  - left. by exists st.
  - rewrite Get_loop_S.
    destruct (Get_iter_cases st cb) as [[st' ->]| ->]; [apply IH | by right].
Qed.

Lemma Get_cases cb : (exists l, Get cb = Ret l cb) \/ Get cb = Panic cb.
Proof.
  unfold Get, Get_begin, bind, gets, ret, panic.
  destruct (full cb); simpl;
    match goal with |- context [?a <? 0] => destruct (a <? 0) end; simpl; eauto;
    match goal with |- context [Get_loop ?n ?st cb] =>
      destruct (Get_loop_cases n st cb) as [[st' ->]| ->]; eauto
    end.
Qed.

(** X4: the readers never write and never wait.  [Get], [GetData],
    [CreateIterator], [Empty], [NotEmpty] and [Value] leave any buffer as
    it is, the mutex included, however they end, and none of them waits
    for the mutex, held or not. *)
Theorem readers_never_write_nor_wait cb (it : Iterator) :
  (state_of (Get cb) = cb /\ waits (Get cb) = false) /\
  (state_of (GetData cb) = cb /\ waits (GetData cb) = false) /\
  (state_of (CreateIterator cb) = cb /\ waits (CreateIterator cb) = false) /\
  (state_of (Empty cb) = cb /\ waits (Empty cb) = false) /\
  (state_of (NotEmpty cb) = cb /\ waits (NotEmpty cb) = false) /\
  (state_of (Value it cb) = cb /\ waits (Value it cb) = false).
Proof.
  split_and!; try done.
  - apply Get_state.
  - by destruct (Get_cases cb) as [[l ->]| ->].
  - unfold CreateIterator, bind, gets, ret. by destruct (full cb).
  - unfold CreateIterator, bind, gets, ret. by destruct (full cb).
  - unfold Value, bind, load_data, gets, ret.
    by destruct (Slice.get (data cb) (it_index it)).
  - unfold Value, bind, load_data, gets, ret.
    by destruct (Slice.get (data cb) (it_index it)).
Qed.

(** While the buffer has unset slots left, the slice is the values appended
    so far followed by the unset slots. *)
Lemma Appends_fill ds :
  forall cb (l : list (iface V)) (k : nat),
    wf cb -> 1 <= size cb -> mutex cb = false ->
    data cb = l ++ replicate k None ->
    ((0 < k)%nat -> index cb = Z.of_nat (length l)) ->
    (length ds <= k)%nat ->
    exists cb',
      Appends ds cb = Ret tt cb' /\
      data cb' = (l ++ ds) ++ replicate (k - length ds) None.
Proof.
  induction ds as [|d ds IH]; intros cb l k Hwf Hpos Hm Hdata Hidx Hk.
  - exists cb. split; [done|]. simpl. by rewrite app_nil_r, Nat.sub_0_r.
  - simpl in Hk. destruct k as [|k]; [lia|].
    specialize (Hidx ltac:(lia)).
    assert (data (appended d cb) = (l ++ [d]) ++ replicate k None) as Hdata'.
    { simpl. rewrite Hidx, Nat2Z.id, Hdata.
      rewrite insert_app_r_alt by lia. rewrite Nat.sub_diag. simpl.
      by rewrite <- app_assoc. }
    destruct (IH (appended d cb) (l ++ [d]) k) as (cb' & Hrun & Hd');
      [by apply wf_appended | done | done | done | | lia |].
    { intros Hk0. destruct Hwf as [Hsz Hlen _ _].
      rewrite Hdata, length_app, length_replicate in Hlen.
      simpl. unfold next_index. rewrite Hidx, length_app. simpl.
      destruct (Z.leb_spec (size cb) (Z.of_nat (length l) + 1)); lia. }
    exists cb'. simpl Appends. unfold bind.
    rewrite Append_appended by done. split; [done|].
    rewrite Hd', <- (app_assoc l [d] ds). done.
Qed.

(** X5: the raw slots while the buffer fills.  After [n <= c] appends to a
    new buffer of capacity [c >= 1], [GetData] returns the [n] values in
    append order followed by the [c - n] slots still unset. *)
Theorem GetData_fill (c : Z) ds :
  1 <= c <= int_max -> Z.of_nat (length ds) <= c ->
  exists cb0 cb : CyclicBuffer V,
    New c = Some cb0 /\ Appends ds cb0 = Ret tt cb /\
    GetData cb = Ret (ds ++ replicate (Z.to_nat c - length ds) None) cb.
Proof.
  intros Hc Hn.
  destruct (New_outcomes (V:=V) c) as [Hnew _].
  destruct Hnew as (cb0 & Hnew & Hdata & _ & Hsz & Hi & _ & Hm & _); [lia|].
  assert (reachable cb0) as Hr by (apply (reachable_New c); [lia|done]).
  destruct (reachable_wf cb0 Hr) as [Hwf _].
  destruct (Appends_fill ds cb0 [] (Z.to_nat c)) as (cb & Hrun & Hd);
    [done | lia | done | done | by rewrite Hi | lia |].
  exists cb0, cb. split; [done|]. split; [done|].
  unfold GetData, gets. by rewrite Hd.
Qed.

(** X6: the raw slots against the snapshot.  On a reachable buffer
    [GetData] returns exactly [size] slots and [Get] returns [count] of
    them, never more than [size].  On a full buffer the raw slots are the
    snapshot rotated by the write cursor, so both hold the same values; on
    a buffer that is not full the snapshot is the first [index] raw
    slots. *)
Theorem GetData_rotation cb :
  reachable cb ->
  exists raw l,
    GetData cb = Ret raw cb /\ Get cb = Ret l cb /\
    Z.of_nat (length raw) = size cb /\
    Z.of_nat (length l) = count cb /\ count cb <= size cb /\
    (full cb = true ->
     raw = from_slot (Z.to_nat (size cb - index cb)) l /\ Permutation raw l) /\
    (full cb = false -> l = take (Z.to_nat (index cb)) raw).
Proof.
  intros Hr. destruct (reachable_wf cb Hr) as [Hwf _].
  pose proof (length_content cb Hwf) as Hlc.
  exists (data cb), (content cb).
  split; [done|]. split; [by apply Get_content|].
  destruct Hwf as [Hsz Hlen Hidx Hf].
  split; [done|]. split; [done|].
  split; [unfold count; destruct (full cb); lia|].
  unfold content. split; intros Hfull; rewrite Hfull; [|done].
  specialize (Hf Hfull). split.
  - replace (Z.to_nat (size cb - index cb))
      with (length (data cb) - Z.to_nat (index cb))%nat by lia.
    symmetry. apply from_slot_back. lia.
  - unfold from_slot. rewrite <- (take_drop (Z.to_nat (index cb)) (data cb)) at 1.
    apply Permutation_app_comm.
Qed.

(** X7: an iterator stopped early has yielded a prefix of the snapshot.
    On a reachable buffer whose [Get] returns [l], the first [k] calls of
    [Value] on a new iterator, for any [k] up to the number of live
    entries, all return and yield the first [k] values of [l]; the
    iterator then has [count - k] entries left, and [Next] answers true
    exactly when [k < count]. *)
Theorem Values_prefix cb (k : nat) :
  reachable cb -> Z.of_nat k <= count cb ->
  exists l it it',
    Get cb = Ret l cb /\
    CreateIterator cb = Ret it cb /\
    Values k it [] cb = Ret (take k l, it') cb /\
    it_count it' = count cb - Z.of_nat k /\
    Next it' = (Z.of_nat k <? count cb).
Proof.
  intros Hr Hk. destruct (reachable_wf cb Hr) as [Hwf _].
  pose proof (Get_content cb Hwf) as HG.
  destruct Hwf as [Hsz Hlen Hidx Hf].
  assert (int_min <= 0) as Hmin by (unfold int_min; lia).
  unfold count, content in *. unfold CreateIterator, bind, gets, ret.
  destruct (full cb) eqn:Hfull.
  - specialize (Hf eq_refl).
    destruct (Values_from_slot cb k Hlen (proj2 Hsz)
                (Z.to_nat (index cb)) (size cb) []) as [j Hj]; [lia..|].
    rewrite Z2Nat.id in Hj by lia.
    eexists _, _, _. split; [exact HG|]. split; [reflexivity|].
    split; [exact Hj|]. split; [done|].
    unfold Next. simpl.
    destruct (Z.ltb_spec 0 (size cb - Z.of_nat k)),
             (Z.ltb_spec (Z.of_nat k) (size cb)); try done; lia.
  - destruct (Values_from_slot cb k Hlen (proj2 Hsz) 0%nat (index cb) [])
      as [j Hj]; [lia..|].
    change (Z.of_nat 0) with 0 in Hj. rewrite from_slot_0 in Hj.
    eexists _, _, _. split; [exact HG|]. split; [reflexivity|].
    split.
    + rewrite Hj. simpl. rewrite take_take. do 3 f_equal. lia.
    + split; [done|]. unfold Next. simpl.
      destruct (Z.ltb_spec 0 (index cb - Z.of_nat k)),
               (Z.ltb_spec (Z.of_nat k) (index cb)); try done; lia.
Qed.

(** X8: an iterator does not see the buffer as it was when it was made.
    Take an iterator on a reachable buffer of capacity at least 1 whose
    [Get] returns [l], then append [d], then drain the iterator.  On a full
    buffer it yields [d] first, in the place of the oldest entry, and then
    the rest of [l]; on a buffer that is not full it yields [l] and not
    [d]. *)
Theorem iterator_after_append cb d :
  reachable cb -> 1 <= size cb ->
  exists it l i cb',
    CreateIterator cb = Ret it cb /\ Get cb = Ret l cb /\
    Append d cb = Ret i cb' /\
    forall fuel : nat,
      (Z.to_nat (count cb) <= fuel)%nat ->
      drain fuel it [] cb'
      = Ret (Some (if full cb then d :: drop 1 l else l)) cb'.
Proof.
  intros Hr Hpos. destruct (reachable_wf cb Hr) as [Hwf Hm].
  pose proof (Get_content cb Hwf) as HG.
  pose proof (Append_appended d cb Hwf Hpos Hm) as HA.
  destruct (wf_appended d cb Hwf Hpos) as [Hsz' Hlen' _ _].
  destruct Hwf as [Hsz Hlen Hidx Hf].
  assert (Z.to_nat (index cb) < length (data cb))%nat as Hi by lia.
  destruct (lookup_lt_is_Some_2 _ _ Hi) as [x Hx].
  assert (length (data (appended d cb)) = length (data cb)) as Hli
    by apply length_insert.
  unfold count, content in *. unfold CreateIterator, bind, gets, ret.
  destruct (full cb) eqn:Hfull;
    eexists _, _, _, _; (split; [reflexivity|]); (split; [exact HG|]);
    (split; [exact HA|]); intros fuel Hfuel.
  - pose proof (drain_from_slot (appended d cb) (Z.to_nat (size cb)) Hlen'
                  (proj2 Hsz') fuel (Z.to_nat (index cb)) []) as Hd.
    rewrite !Z2Nat.id in Hd by lia. rewrite Hd by (rewrite ?Hli; lia).
    simpl.
    rewrite take_ge by (rewrite length_from_slot, length_insert; lia).
    by rewrite (from_slot_insert_same _ _ x).
  - pose proof (drain_from_slot (appended d cb) (Z.to_nat (index cb)) Hlen'
                  (proj2 Hsz') fuel 0%nat []) as Hd.
    rewrite !Z2Nat.id in Hd by lia. change (Z.of_nat 0) with 0 in Hd.
    rewrite Hd by (rewrite ?Hli; lia). simpl.
    rewrite from_slot_0, take_insert_ge by lia. done.
Qed.

(** X9: on a reachable buffer [Empty()] is true exactly when [Get()]
    returns the empty slice. *)
Theorem Empty_iff_Get_nil cb :
  reachable cb ->
  exists (b : bool) l,
    Empty cb = Ret b cb /\ Get cb = Ret l cb /\ (b = true <-> l = []).
Proof.
  intros Hr. destruct (reachable_wf cb Hr) as [Hwf _].
  pose proof (length_content cb Hwf) as Hlc.
  exists (negb (full cb || (0 <? index cb))), (content cb).
  split; [done|]. split; [by apply Get_content|].
  destruct Hwf as [Hsz Hlen Hidx Hf]. unfold count in Hlc.
  rewrite negb_true_iff, orb_false_iff, Z.ltb_ge.
  rewrite <- length_zero_iff_nil.
  destruct (full cb).
  - specialize (Hf eq_refl). split; [by intros [? _] | lia].
  - split; [intros [_ Hi] | intros Hi; split; [done|]]; lia.
Qed.

(** X10: nothing is ever taken out.  A call of the public interface that
    returns never lowers the number of live entries, so a buffer that is
    not empty stays so; and after any [Append] that returns, [NotEmpty()]
    is true and [Empty()] is false. *)
Theorem never_emptied cb (op : Call V) cb' :
  reachable cb -> call op cb = Ret tt cb' ->
  count cb <= count cb' /\
  (NotEmpty cb = Ret true cb -> NotEmpty cb' = Ret true cb') /\
  (forall d, op = CallAppend d ->
             NotEmpty cb' = Ret true cb' /\ Empty cb' = Ret false cb').
Proof.
  intros Hr Hcall. destruct (reachable_wf cb Hr) as [Hwf Hm].
  assert (forall c : CyclicBuffer V,
             NotEmpty c = Ret (full c || (0 <? index c)) c) as HN by done.
  assert (forall c : CyclicBuffer V,
             Empty c = Ret (negb (full c || (0 <? index c))) c) as HE by done.
  destruct (Call_cases op) as [[d ->]|Hop].
  - unfold call, bind in Hcall.
    destruct (decide (1 <= size cb)) as [Hpos|Hpos].
    + rewrite Append_appended in Hcall by done. injection Hcall as <-.
      pose proof (count_appended d cb Hwf Hpos) as Hc.
      destruct Hwf as [Hsz Hlen Hidx Hf].
      assert (full (appended d cb) || (0 <? index (appended d cb)) = true) as Hne.
      { unfold appended, next_index. simpl.
        destruct (full cb), (Z.leb_spec (size cb) (index cb + 1));
          simpl; try done.
        apply Z.ltb_lt. lia. }
      rewrite (HN (appended d cb)), (HE (appended d cb)), Hne.
      split; [|by split].
      rewrite Hc. unfold count. destruct (full cb); lia.
    + rewrite Append_no_slot in Hcall; [done| |done].
      destruct Hwf as [? Hlen ? ?]. apply length_zero_iff_nil. lia.
  - assert (reachable cb') as Hr' by (by apply (reachable_call op cb)).
    destruct (reachable_wf cb' Hr') as [_ Hm'].
    assert (cb' = cb) as ->.
    { destruct (call_reader op cb Hop) as [Hs|[_ Hs]];
        rewrite Hcall in Hs; simpl in Hs; [done|].
      rewrite Hs in Hm'. done. }
    split_and!; try done. intros d ->. by destruct (Hop d).
Qed.

(** X11: a [Get] overtaken by one [Append].  [Get] reads its start index
    and count without the mutex; when a whole [Append(d)] runs between that
    and the copy loop, on a reachable buffer of capacity at least 1 whose
    [Get] would have returned [l], the [Get] in flight returns [d] followed
    by the rest of [l] when the buffer was full, and [l] when it was not,
    while a [Get] started afterwards returns the last [size] values of
    [l ++ [d]]. *)
Theorem Get_overtaken cb d :
  reachable cb -> 1 <= size cb ->
  exists l cb',
    Get cb = Ret l cb /\
    Get_among [StepAppend d] cb
    = Ret (if full cb then d :: drop 1 l else l) cb' /\
    Get cb' = Ret (last_n (size cb) (l ++ [d])) cb'.
Proof.
  intros Hr Hpos. destruct (reachable_wf cb Hr) as [Hwf Hm].
  pose proof (Get_content cb Hwf) as HG.
  pose proof (Append_appended d cb Hwf Hpos Hm) as HA.
  pose proof (wf_appended d cb Hwf Hpos) as Hwf'.
  pose proof (content_appended d cb Hwf Hpos) as Hcont.
  exists (content cb), (appended d cb).
  split; [exact HG|]. split; [|by rewrite Get_content, Hcont].
  destruct Hwf' as [Hsz' Hlen' _ _]. destruct Hwf as [Hsz Hlen Hidx Hf].
  assert (Z.to_nat (index cb) < length (data cb))%nat as Hi by lia.
  destruct (lookup_lt_is_Some_2 _ _ Hi) as [x Hx].
  assert (length (data (appended d cb)) = length (data cb)) as Hli
    by apply length_insert.
  unfold Get_among, Get_begin, content, bind, gets, ret.
  destruct (full cb) eqn:Hfull; simpl.
  - destruct (Z.ltb_spec (size cb) 0); [lia|]. simpl. unfold bind.
    rewrite HA.
    destruct (Get_loop_from_slot (appended d cb) (Z.to_nat (size cb)) Hlen'
                (proj2 Hsz') (Z.to_nat (index cb)) []) as [j Hj];
      [rewrite Hli; lia | rewrite Hli; lia |].
    rewrite Z2Nat.id in Hj by lia. simpl. rewrite Hj. simpl.
    rewrite take_ge by (rewrite length_from_slot, length_insert; lia).
    by rewrite (from_slot_insert_same _ _ x).
  - destruct (Z.ltb_spec (index cb) 0); [lia|]. simpl. unfold bind.
    rewrite HA. simpl.
    destruct (decide (index cb = 0)) as [H0|H0].
    + rewrite H0. simpl. done.
    + destruct (Get_loop_from_slot (appended d cb) (Z.to_nat (index cb)) Hlen'
                  (proj2 Hsz') 0%nat []) as [j Hj];
        [rewrite Hli; lia | rewrite Hli; lia |].
      change (Z.of_nat 0) with 0 in Hj. rewrite Hj. simpl.
      rewrite from_slot_0, take_insert_ge by lia. done.
Qed.

End Further.

(** *** Instances on the example buffers *)

Section FurtherRuns.

Import Example.

Lemma Get_sliding_window_witness :
  reachable abc /\ 1 <= size abc /\
  exists l cb',
    Get abc = Ret l abc /\ Appends [D; E] abc = Ret tt cb' /\
    reachable cb' /\
    Get cb' = Ret (last_n (size abc) (l ++ [D; E])) cb'.
Proof.
  assert (1 <= size abc) as H by (simpl; lia).
  split; [apply reachable_abc|]. split; [exact H|].
  exact (Get_sliding_window abc [D; E] reachable_abc H).
Defined.

Lemma cursor_after_appends_witness :
  1 <= 3 <= int_max /\
  exists (cb0 cb : CyclicBuffer string) l,
    New 3 = Some cb0 /\ Appends [A; B; C; D] cb0 = Ret tt cb /\
    size cb = 3 /\ index cb = 1 /\ full cb = true /\ count cb = 3 /\
    Get cb = Ret l cb /\ Z.of_nat (length l) = 3.
Proof.
  assert (1 <= 3 <= int_max) as H by (unfold int_max; lia).
  split; [exact H|].
  exact (cursor_after_appends 3 [A; B; C; D] H).
Defined.

Lemma Append_panic_safe_witness :
  mutex (mkCyclicBuffer (V:=string) [] false 0 0 false) = false /\
  Append A (mkCyclicBuffer [] false 0 0 false)
  = Panic (mkCyclicBuffer [] false 0 0 false).
Proof.
  split; [reflexivity|].
  apply (Append_panic_safe A (mkCyclicBuffer [] false 0 0 false) eq_refl).
  reflexivity.
Defined.

Lemma GetData_fill_witness :
  1 <= 3 <= int_max /\ Z.of_nat (length [A; B]) <= 3 /\
  exists cb0 cb : CyclicBuffer string,
    New 3 = Some cb0 /\ Appends [A; B] cb0 = Ret tt cb /\
    GetData cb = Ret [A; B; None] cb.
Proof.
  assert (1 <= 3 <= int_max) as H1 by (unfold int_max; lia).
  assert (Z.of_nat (length [A; B]) <= 3) as H2 by (simpl; lia).
  split; [exact H1|]. split; [exact H2|].
  exact (GetData_fill 3 [A; B] H1 H2).
Defined.

Lemma GetData_rotation_witness :
  reachable abcd /\
  exists raw l,
    GetData abcd = Ret raw abcd /\ Get abcd = Ret l abcd /\
    Z.of_nat (length raw) = size abcd /\
    Z.of_nat (length l) = count abcd /\ count abcd <= size abcd /\
    (full abcd = true ->
     raw = from_slot (Z.to_nat (size abcd - index abcd)) l
     /\ Permutation raw l) /\
    (full abcd = false -> l = take (Z.to_nat (index abcd)) raw).
Proof.
  split; [apply reachable_abcd|].
  exact (GetData_rotation abcd reachable_abcd).
Defined.

Lemma Values_prefix_witness :
  reachable abcd /\ Z.of_nat 2 <= count abcd /\
  exists l it it',
    Get abcd = Ret l abcd /\
    CreateIterator abcd = Ret it abcd /\
    Values 2 it [] abcd = Ret (take 2 l, it') abcd /\
    it_count it' = count abcd - Z.of_nat 2 /\
    Next it' = (Z.of_nat 2 <? count abcd).
Proof.
  assert (Z.of_nat 2 <= count abcd) as H by (unfold count; simpl; lia).
  split; [apply reachable_abcd|]. split; [exact H|].
  exact (Values_prefix abcd 2 reachable_abcd H).
Defined.

Lemma iterator_after_append_witness :
  reachable abc /\ 1 <= size abc /\
  exists it l i cb',
    CreateIterator abc = Ret it abc /\ Get abc = Ret l abc /\
    Append D abc = Ret i cb' /\
    forall fuel : nat,
      (Z.to_nat (count abc) <= fuel)%nat ->
      drain fuel it [] cb'
      = Ret (Some (if full abc then D :: drop 1 l else l)) cb'.
Proof.
  assert (1 <= size abc) as H by (simpl; lia).
  split; [apply reachable_abc|]. split; [exact H|].
  exact (iterator_after_append abc D reachable_abc H).
Defined.

Lemma Empty_iff_Get_nil_witness :
  reachable empty3 /\
  exists (b : bool) l,
    Empty empty3 = Ret b empty3 /\ Get empty3 = Ret l empty3 /\
    (b = true <-> l = []).
Proof.
  split; [apply reachable_empty3|].
  exact (Empty_iff_Get_nil empty3 reachable_empty3).
Defined.

Lemma never_emptied_witness :
  reachable abc /\ call (CallAppend D) abc = Ret tt abcd /\
  count abc <= count abcd /\
  (NotEmpty abc = Ret true abc -> NotEmpty abcd = Ret true abcd) /\
  (forall d, CallAppend D = CallAppend d ->
             NotEmpty abcd = Ret true abcd /\ Empty abcd = Ret false abcd).
Proof.
  assert (call (CallAppend D) abc = Ret tt abcd) as H by reflexivity.
  split; [apply reachable_abc|]. split; [exact H|].
  exact (never_emptied abc (CallAppend D) abcd reachable_abc H).
Defined.

Lemma Get_overtaken_witness :
  reachable abc /\ 1 <= size abc /\
  exists l cb',
    Get abc = Ret l abc /\
    Get_among [StepAppend D] abc
    = Ret (if full abc then D :: drop 1 l else l) cb' /\
    Get cb' = Ret (last_n (size abc) (l ++ [D])) cb'.
Proof.
  assert (1 <= size abc) as H by (simpl; lia).
  split; [apply reachable_abc|]. split; [exact H|].
  exact (Get_overtaken abc D reachable_abc H).
Defined.

End FurtherRuns.
